(** * Signaling relay: room registry, membership lifecycle and signal relay

    A shallow embedding of the socket.io signaling server of the repository
    (the two server sources in [src/unnamed/part_000]) together with the
    invariants and functional properties of its event handlers.

    Modelling conventions.
    - The two process-wide objects [rooms] and [mediaStates] are finite maps
      keyed by strings ([gmap string _]).  A JavaScript object also answers
      to the names it inherits from [Object.prototype] ([constructor],
      [__proto__], ...), and the handlers take any string as a room id; the
      finite maps are the two objects as long as no such name has been used
      as a key.  Statements about what the registries hold are therefore
      made for traces and keys that are [ordinary]; what the code does with
      an inherited name as room id is not described by this model.  The
      enumeration order of a JavaScript object ([Object.entries],
      [for .. in]) is abstracted to the canonical order of the finite map;
      no statement below depends on it.
    - Handler arguments are well typed, except where a handler itself tests
      for absence ([!signal || !to], [audioEnabled ?? ..]): those fields are
      options or untyped JavaScript values.
    - The transport (socket.io) is modelled by its documented interface: a
      table of named rooms, each holding a set of socket ids; every socket
      joins the room named by its own id when it connects; [io.to(g).emit]
      reaches every socket of room [g], [socket.to(g).emit] every socket of
      room [g] but the sender, [socket.emit] the socket itself. *)

From Stdlib Require Import ZArith NArith.
From stdpp Require Import gmap strings list fin_maps fin_sets.

Local Open Scope nat_scope.
#[local] Set Warnings "-clear-no-such-hyp".

(** ** JavaScript values and text *)

(** The [signal: any] payload: an untyped JavaScript value. *)
Inductive JsValue :=
| JUndefined
| JNull
| JBool (b : bool)
| JNumber (z : Z)
| JNaN
| JString (s : string)
| JObject (fields : JsFields)
with JsFields :=
| JNoField
| JField (key : string) (value : JsValue) (rest : JsFields).

(** JavaScript truthiness, as tested by [!signal]. *)
Definition truthy (v : JsValue) : bool :=
  match v with
  | JUndefined | JNull | JNaN => false
  | JBool b => b
  | JNumber z => negb (z =? 0)%Z
  | JString s => negb (String.eqb s EmptyString)
  | JObject _ => true
  end.

(** Truthiness of an optional string field ([!to]): absent and empty are falsy. *)
Definition truthy_string (o : option string) : bool :=
  match o with
  | None => false
  | Some s => negb (String.eqb s EmptyString)
  end.

(** Chat text is a sequence of UTF-16 code units, so that [String.prototype.trim]
    can be stated on the characters it inspects. *)
Definition Text := list N.

(** ECMAScript WhiteSpace and LineTerminator code points (all in the BMP). *)
Definition is_white_space (c : N) : bool :=
  ((c =? 9) || (c =? 10) || (c =? 11) || (c =? 12) || (c =? 13) || (c =? 32)
   || (c =? 160) || (c =? 5760) || ((8192 <=? c) && (c <=? 8202))
   || (c =? 8232) || (c =? 8233) || (c =? 8239) || (c =? 8287)
   || (c =? 12288) || (c =? 65279))%N.

Fixpoint trim_start (t : Text) : Text :=
  match t with
  | [] => []
  | c :: t' => if is_white_space c then trim_start t' else t
  end.

Definition trim_end (t : Text) : Text := reverse (trim_start (reverse t)).

(** [message.trim()] *)
Definition trim (t : Text) : Text := trim_end (trim_start t).

(** ** Configuration *)

(** [t.split(sep)] for a separator of one code unit: the pieces between the
    separators, the empty text giving one empty piece. *)
Fixpoint split_on (sep : N) (t : Text) : list Text :=
  match t with
  | [] => [[]]
  | c :: t' =>
      if (c =? sep)%N then [] :: split_on sep t'
      else match split_on sep t' with
           | w :: ws => (c :: w) :: ws
           | [] => [[c]]
           end
  end.

(** [.filter(Boolean)] on strings: the empty ones are dropped. *)
Definition non_empty (l : list Text) : list Text := filter (λ t, t ≠ []) l.

(** [(process.env.ORIGIN ?? "").split(",").map(s => s.trim()).filter(Boolean)];
    44 is the comma. *)
Definition origins (env : option Text) : list Text :=
  non_empty (trim <$> split_on 44 (default [] env)).

(** [l.join(sep)] *)
Fixpoint join_with (sep : N) (l : list Text) : Text :=
  match l with
  | [] => []
  | w :: l' =>
      match l' with
      | [] => w
      | _ :: _ => w ++ sep :: join_with sep l'
      end
  end.

(** ** Data model *)

(** An entry of [rooms[roomId]]; also the shape of an [existingUsers] item and
    of the [user:joined] payload. *)
Record Participant := mkParticipant {
  socketId : string;
  userId : string;
  displayName : string;
  photoURL : option string;
}.

(** An entry of [mediaStates[roomId]].  [isScreenSharing] is an optional field
    ([isScreenSharing?: boolean]); the second server source has no such field. *)
Record MediaState := mkMediaState {
  audioEnabled : bool;
  videoEnabled : bool;
  isScreenSharing : option bool;
}.

(** The observable value of the screen-sharing flag ([isScreenSharing ?? false]). *)
Definition screen_flag (m : MediaState) : bool := default false (isScreenSharing m).

(** The two server sources of [part_000]: lines 1-195 (screen sharing events,
    [isScreenSharing] flag) and lines 195-345 (no screen sharing). *)
Inductive Server := WithScreenShare | Basic.

(** Server to client events. *)
Inductive Msg :=
| RoomFull
| RoomJoined (room : string) (existingUsers : list Participant)
| MediaStates (states : gmap string MediaState)
| UserJoined (p : Participant)
| SignalMsg (from : string) (signal : JsValue) (name user photo : option string)
| MediaStateMsg (sock : string) (audio video : bool)
| ScreenShareMsg (sock : string) (sharing : bool) (name photo : option string)
| PeerScreenShareStart (sock : string) (name photo : option string)
| PeerScreenShareStop (sock : string)
| ScreenSignalMsg (from : string) (signal : JsValue)
| UserLeft (sock : string)
| ChatMessage (user : string) (message : Text) (timestamp : Z).

(** Client to server events, with the arguments of their handlers. *)
Inductive ClientEvent :=
| JoinRoom (room user name : string) (photo : option string)
| Signal (to : option string) (from : string) (signal : JsValue) (room : string)
| MediaStateEv (room : string) (audio video : option bool)
| ScreenShare (room : string) (sharing : bool)
| ScreenShareStart (room : string)
| ScreenShareStop (room : string)
| ScreenSignal (to : option string) (from : string) (signal : JsValue) (room : string)
| LeaveRoom (room : string)
| Chat (room user : string) (message : Text).

(** The state of the process: the two global registries, and the transport's
    room table and set of live sockets. *)
Record State := mkState {
  rooms : gmap string (gmap string Participant);
  mediaStates : gmap string (gmap string MediaState);
  adapter : gmap string (gset string);
  connected : gset string;
}.

Definition init : State :=
  {| rooms := ∅; mediaStates := ∅; adapter := ∅; connected := ∅ |}.

(** ** Transport *)

(** The sockets currently in transport room [g]. *)
Definition sockets_in (σ : State) (g : string) : gset string :=
  default ∅ (adapter σ !! g).

Definition set_adapter (a : gmap string (gset string)) (σ : State) : State :=
  {| rooms := rooms σ; mediaStates := mediaStates σ; adapter := a;
     connected := connected σ |}.

(** [socket.join(g)] *)
Definition socket_join (s g : string) (σ : State) : State :=
  set_adapter (<[g := {[s]} ∪ sockets_in σ g]> (adapter σ)) σ.

(** Removing a socket from one transport room; an emptied room is dropped. *)
Definition room_del (s : string) (S : gset string) : option (gset string) :=
  if decide (S ∖ {[s]} = ∅) then None else Some (S ∖ {[s]}).

(** [socket.leave(g)] *)
Definition socket_leave (s g : string) (σ : State) : State :=
  set_adapter (partial_alter (λ o, o ≫= room_del s) g (adapter σ)) σ.

(** What the transport does when a socket goes away: it leaves every room. *)
Definition socket_close (s : string) (σ : State) : State :=
  {| rooms := rooms σ; mediaStates := mediaStates σ;
     adapter := omap (room_del s) (adapter σ);
     connected := connected σ ∖ {[s]} |}.

(** A new connection: the socket joins the room named by its own id. *)
Definition socket_open (s : string) (σ : State) : State :=
  socket_join s s
    {| rooms := rooms σ; mediaStates := mediaStates σ; adapter := adapter σ;
       connected := {[s]} ∪ connected σ |}.

(** How an event was addressed. *)
Inductive Target :=
| ToSocket (s : string)                (* socket.emit *)
| ToRoom (g : string)                  (* io.to(g).emit *)
| ToRoomExcept (g : string) (s : string). (* socket.to(g).emit *)

(** One emitted event: its addressing, its content, and the sockets it is
    delivered to (each once). *)
Record Emission := mkEmission {
  target : Target;
  payload : Msg;
  recipients : list string;
}.

Definition socket_emit (s : string) (m : Msg) : Emission :=
  {| target := ToSocket s; payload := m; recipients := [s] |}.

Definition io_to_emit (σ : State) (g : string) (m : Msg) : Emission :=
  {| target := ToRoom g; payload := m; recipients := elements (sockets_in σ g) |}.

Definition socket_to_emit (σ : State) (s g : string) (m : Msg) : Emission :=
  {| target := ToRoomExcept g s; payload := m;
     recipients := elements (sockets_in σ g ∖ {[s]}) |}.

(** ** Room store helpers

    The lookups, updates and enumerations below are those of the code on
    keys that are [ordinary] (defined with the auxiliary definitions): a
    lookup in a finite map finds own entries only, where the JavaScript
    object also finds what it inherits, and the fold of the disconnect
    handler runs over the own keys, as [for .. in] does as long as
    [Object.prototype] has gained no enumerable property. *)

Definition set_store (r : gmap string (gmap string Participant))
    (m : gmap string (gmap string MediaState)) (σ : State) : State :=
  {| rooms := r; mediaStates := m; adapter := adapter σ; connected := connected σ |}.

(** [rooms[roomId] ? Object.keys(rooms[roomId]).length : 0] *)
Definition currentCount (σ : State) (r : string) : nat :=
  match rooms σ !! r with
  | Some m => size m
  | None => 0
  end.

(** [if (!o[k]) o[k] = {}] *)
Definition ensure {V} (k : string) (o : gmap string (gmap string V)) :
    gmap string (gmap string V) :=
  match o !! k with
  | Some _ => o
  | None => <[k := ∅]> o
  end.

(** [rooms[roomId]?.[socketId]] *)
Definition member (σ : State) (r s : string) : option Participant :=
  rooms σ !! r ≫= (.!! s).

(** [mediaStates[roomId]?.[socketId]] *)
Definition media_of (σ : State) (r s : string) : option MediaState :=
  mediaStates σ !! r ≫= (.!! s).

(** The media state given to a joiner, and seeded by [media:state]. *)
Definition default_media (v : Server) : MediaState :=
  {| audioEnabled := true; videoEnabled := true;
     isScreenSharing := match v with WithScreenShare => Some false | Basic => None end |}.

(** [Object.entries(m).filter(([id]) => id !== s).map(([id, info]) => ({socketId: id, ..}))] *)
Definition others (s : string) (m : gmap string Participant) : list Participant :=
  (λ e, {| socketId := e.1; userId := userId e.2;
           displayName := displayName e.2; photoURL := photoURL e.2 |})
    <$> filter (λ e, e.1 ≠ s) (map_to_list m).

(** ** Event handlers *)

(** [socket.on("join:room", (roomId, userId, displayName, photoURL) => ..)] *)
Definition handle_join (v : Server) (s r u d : string) (p : option string)
    (σ : State) : State * list Emission :=
  if decide (10 ≤ currentCount σ r) then (σ, [socket_emit s RoomFull])
  else
    let σ1 := socket_join s r σ in
    let rooms1 := ensure r (rooms σ1) in
    let media1 := ensure r (mediaStates σ1) in
    let rooms2 :=
      alter (insert s {| socketId := s; userId := u; displayName := d; photoURL := p |})
        r rooms1 in
    let media2 := alter (insert s (default_media v)) r media1 in
    let σ2 := set_store rooms2 media2 σ1 in
    let existingUsers := others s (default ∅ (rooms2 !! r)) in
    (σ2,
     [ socket_emit s (RoomJoined r existingUsers);
       socket_emit s (MediaStates (default ∅ (media2 !! r)));
       socket_to_emit σ2 s r
         (UserJoined {| socketId := s; userId := u; displayName := d; photoURL := p |}) ]).

(** [socket.on("signal", ({to, from, signal, roomId}) => ..)] *)
Definition handle_signal (to : option string) (from : string) (signal : JsValue)
    (r : string) (σ : State) : State * list Emission :=
  if negb (truthy signal) || negb (truthy_string to) then (σ, [])
  else
    let senderInfo := member σ r from in
    match to with
    | Some t =>
        (σ, [ io_to_emit σ t
                (SignalMsg from signal (displayName <$> senderInfo)
                   (userId <$> senderInfo) (senderInfo ≫= photoURL)) ])
    | None => (σ, [])
    end.

(** [socket.on("media:state", ({roomId, audioEnabled, videoEnabled}) => ..)].
    The broadcast reads back the entry just written. *)
Definition handle_media_state (v : Server) (s r : string) (a vd : option bool)
    (σ : State) : State * list Emission :=
  let media1 := ensure r (mediaStates σ) in
  let current := default (default_media v) (media1 !! r ≫= (.!! s)) in
  let next :=
    {| audioEnabled := default (audioEnabled current) a;
       videoEnabled := default (videoEnabled current) vd;
       isScreenSharing :=
         match v with
         | WithScreenShare => Some (default false (isScreenSharing current))
         | Basic => None
         end |} in
  let σ1 := set_store (rooms σ) (alter (insert s next) r media1) σ in
  (σ1, [ socket_to_emit σ1 s r (MediaStateMsg s (audioEnabled next) (videoEnabled next)) ]).

(** [if (mediaStates[roomId]?.[socket.id]) mediaStates[roomId][socket.id].isScreenSharing = b] *)
Definition set_sharing (s r : string) (b : bool) (σ : State) : State :=
  set_store (rooms σ)
    (alter (alter (λ m, {| audioEnabled := audioEnabled m;
                            videoEnabled := videoEnabled m;
                            isScreenSharing := Some b |}) s) r (mediaStates σ)) σ.

(** [socket.on("screen:share", ({roomId, sharing}) => ..)] *)
Definition handle_screen_share (s r : string) (sharing : bool) (σ : State) :
    State * list Emission :=
  let σ1 := set_sharing s r sharing σ in
  let senderInfo := member σ1 r s in
  (σ1, [ socket_to_emit σ1 s r
           (ScreenShareMsg s sharing (displayName <$> senderInfo) (senderInfo ≫= photoURL)) ]).

(** [socket.on("screen:share-start", ({roomId}) => ..)] *)
Definition handle_screen_share_start (s r : string) (σ : State) : State * list Emission :=
  let σ1 := set_sharing s r true σ in
  let senderInfo := member σ1 r s in
  (σ1, [ socket_to_emit σ1 s r
           (PeerScreenShareStart s (displayName <$> senderInfo) (senderInfo ≫= photoURL)) ]).

(** [socket.on("screen:share-stop", ({roomId}) => ..)] *)
Definition handle_screen_share_stop (s r : string) (σ : State) : State * list Emission :=
  let σ1 := set_sharing s r false σ in
  (σ1, [ socket_to_emit σ1 s r (PeerScreenShareStop s) ]).

(** [socket.on("screen:signal", ({to, from, signal, roomId}) => ..)]; a missing
    [to] names no room. *)
Definition handle_screen_signal (to : option string) (from : string)
    (signal : JsValue) (σ : State) : State * list Emission :=
  match to with
  | Some t => (σ, [ io_to_emit σ t (ScreenSignalMsg from signal) ])
  | None => (σ, [])
  end.

(** [socket.on("leave:room", (roomId) => ..)] *)
Definition handle_leave (s r : string) (σ : State) : State * list Emission :=
  match member σ r s with
  | None => (σ, [])
  | Some _ =>
      let rooms1 := alter (delete s) r (rooms σ) in
      let media1 := alter (delete s) r (mediaStates σ) in
      let e := socket_to_emit σ s r (UserLeft s) in
      let σ1 := socket_leave s r σ in
      if decide (size (default ∅ (rooms1 !! r)) = 0)
      then (set_store (delete r rooms1) (delete r media1) σ1, [e])
      else (set_store rooms1 media1 σ1, [e])
  end.

(** [socket.on("chat:message", ({roomId, userId, message}) => ..)]; [now] is the
    server clock read by [new Date()]. *)
Definition handle_chat (now : Z) (r u : string) (message : Text) (σ : State) :
    State * list Emission :=
  (σ, [ io_to_emit σ r (ChatMessage u (trim message) now) ]).

(** The body of the [for (const roomId in rooms)] loop of the disconnect
    handler.  The second server source does not delete [mediaStates[roomId]]. *)
Definition disconnect_room (v : Server) (s : string)
    (acc : State * list Emission) (r : string) : State * list Emission :=
  match member acc.1 r s with
  | None => acc
  | Some _ =>
      let σ := acc.1 in
      let rooms1 := alter (delete s) r (rooms σ) in
      let media1 := alter (delete s) r (mediaStates σ) in
      let e := socket_to_emit σ s r (UserLeft s) in
      if decide (size (default ∅ (rooms1 !! r)) = 0)
      then (set_store (delete r rooms1)
              (match v with WithScreenShare => delete r media1 | Basic => media1 end) σ,
            acc.2 ++ [e])
      else (set_store rooms1 media1 σ, acc.2 ++ [e])
  end.

(** [socket.on("disconnect", () => ..)]: the transport has already taken the
    socket out of every room when the handler runs. *)
Definition handle_disconnect (v : Server) (s : string) (σ : State) :
    State * list Emission :=
  foldl (disconnect_room v s) (socket_close s σ, []) (map_to_list (rooms σ)).*1.

(** Dispatch of a client event to the handler registered for it. *)
Definition handle (v : Server) (now : Z) (s : string) (e : ClientEvent) (σ : State) :
    State * list Emission :=
  match e with
  | JoinRoom r u d p => handle_join v s r u d p σ
  | Signal to from sg r => handle_signal to from sg r σ
  | MediaStateEv r a vd => handle_media_state v s r a vd σ
  | LeaveRoom r => handle_leave s r σ
  | Chat r u m => handle_chat now r u m σ
  | ScreenShare r b =>
      match v with WithScreenShare => handle_screen_share s r b σ | Basic => (σ, []) end
  | ScreenShareStart r =>
      match v with WithScreenShare => handle_screen_share_start s r σ | Basic => (σ, []) end
  | ScreenShareStop r =>
      match v with WithScreenShare => handle_screen_share_stop s r σ | Basic => (σ, []) end
  | ScreenSignal to from sg _ =>
      match v with WithScreenShare => handle_screen_signal to from sg σ | Basic => (σ, []) end
  end.

(** ** The server as a transition system *)

(** What happens on the server: a socket connects, a live socket sends an
    event, a live socket goes away. *)
Inductive Input :=
| Connect (s : string)
| Receive (s : string) (e : ClientEvent)
| Disconnect (s : string).

(** One transition at server time [now].  Socket ids are unique among live
    sockets and only live sockets have handlers, so other inputs do nothing. *)
Definition step (v : Server) (σ : State) (i : Z * Input) : State * list Emission :=
  match i.2 with
  | Connect s => if decide (s ∈ connected σ) then (σ, []) else (socket_open s σ, [])
  | Receive s e => if decide (s ∈ connected σ) then handle v i.1 s e σ else (σ, [])
  | Disconnect s => if decide (s ∈ connected σ) then handle_disconnect v s σ else (σ, [])
  end.

(** Running a trace from a state, collecting everything emitted. *)
Definition run_from (v : Server) (σ : State) (tr : list (Z * Input)) :
    State * list Emission :=
  foldl (λ acc i, let r := step v acc.1 i in (r.1, acc.2 ++ r.2)) (σ, []) tr.

Definition run (v : Server) (tr : list (Z * Input)) : State * list Emission :=
  run_from v init tr.

(** The state reached after a trace from the initial state. *)
Definition state_after (v : Server) (tr : list (Z * Input)) : State := (run v tr).1.

(** ** The client's view of the room (ChatAndVideo.tsx) *)

Module Client.

(** A media entry of the client's [mediaStates].  Its type declares the audio
    and video flags as mandatory, but the [screen:share] updater can create
    an entry without them, so every field is optional. *)
Record MediaState := mkMediaState {
  audioEnabled : option bool;
  videoEnabled : option bool;
  isScreenSharing : option bool;
}.

(** [{ audioEnabled: true, videoEnabled: true, isScreenSharing: false }] *)
Definition fresh : MediaState :=
  {| audioEnabled := Some true; videoEnabled := Some true; isScreenSharing := Some false |}.

(** The updater of the [media:states] handler: [(prev) => ({ ...state, ...prev })]. *)
Definition on_media_states (state prev : gmap string MediaState) :
    gmap string MediaState :=
  prev ∪ state.

(** The updater of the [media:state] handler. *)
Definition on_media_state (socketId : string) (a v : option bool)
    (prev : gmap string MediaState) : gmap string MediaState :=
  <[socketId :=
      {| audioEnabled := Some (default (default true (prev !! socketId ≫= audioEnabled)) a);
         videoEnabled := Some (default (default true (prev !! socketId ≫= videoEnabled)) v);
         isScreenSharing := Some (default false (prev !! socketId ≫= isScreenSharing)) |}]>
    prev.

(** The [mediaStates] updater of the [screen:share] handler:
    [{ ...prev, [socketId]: { ...prev[socketId], isScreenSharing: sharing } }]. *)
Definition on_screen_share (socketId : string) (sharing : bool)
    (prev : gmap string MediaState) : gmap string MediaState :=
  <[socketId :=
      {| audioEnabled := prev !! socketId ≫= audioEnabled;
         videoEnabled := prev !! socketId ≫= videoEnabled;
         isScreenSharing := Some sharing |}]>
    prev.

(** [room:joined]: the record [media] built from [existingUsers] and the
    client's own socket id ([muted] and [videoEnabled] are the component's
    state). *)
Definition joined_media (existingUsers : list Participant) (own : string)
    (muted video : bool) : gmap string MediaState :=
  let media := foldl (λ acc u, <[socketId u := fresh]> acc) ∅ existingUsers in
  if truthy_string (Some own)
  then <[own := {| audioEnabled := Some (negb muted); videoEnabled := Some video;
                   isScreenSharing := Some false |}]> media
  else media.

(** [room:joined]: the updater [(prev) => ({ ...media, ...prev })]. *)
Definition on_room_joined (existingUsers : list Participant) (own : string)
    (muted video : bool) (prev : gmap string MediaState) : gmap string MediaState :=
  prev ∪ joined_media existingUsers own muted video.

(** [room:joined]: the set [ids], whose size is the participant count shown. *)
Definition joined_ids (existingUsers : list Participant) (own : string) : gset string :=
  let ids := foldl (λ acc u, {[socketId u]} ∪ acc) ∅ existingUsers in
  if truthy_string (Some own) then {[own]} ∪ ids else ids.

Definition MAX_REMOTE_PEERS : nat := 9.

(** [room:joined]: the users the joiner opens a peer connection to,
    [existingUsers.slice(0, MAX_REMOTE_PEERS)]. *)
Definition peers_to_call (existingUsers : list Participant) : list Participant :=
  take MAX_REMOTE_PEERS existingUsers.

Section initials.
(** [String.prototype.toUpperCase], which the model does not fix. *)
Variable toUpperCase : Text → Text.

(** [name.split(" ").filter(Boolean).slice(0, 2).map((s) => s[0]?.toUpperCase() || "").join("")];
    32 is the space. *)
Definition getInitials (name : Text) : Text :=
  concat ((λ s, match s with c :: _ => toUpperCase [c] | [] => [] end)
            <$> take 2 (non_empty (split_on 32 name))).
End initials.

End Client.

(** A media entry of the server as the client receives it. *)
Definition to_client (m : MediaState) : Client.MediaState :=
  {| Client.audioEnabled := Some (audioEnabled m);
     Client.videoEnabled := Some (videoEnabled m);
     Client.isScreenSharing := isScreenSharing m |}.

(** ** Auxiliary definitions for the statements *)

(** Removing member [s] from a room's map; a room left empty is dropped. *)
Definition leave_entry {V} (s : string) (m : gmap string V) : option (gmap string V) :=
  if decide (size (delete s m) = 0) then None else Some (delete s m).

(** The entry of [rooms] for a room after [s] left it, if [s] was a member. *)
Definition rooms_without (s : string) (o : option (gmap string Participant)) :
    option (gmap string Participant) :=
  m ← o; if m !! s is Some _ then leave_entry s m else Some m.

(** The entry of [mediaStates] for a room whose [rooms] entry is [o], after [s]
    left it; [drop] tells whether the emptied room's entry is deleted. *)
Definition media_without (drop : bool) (s : string)
    (o : option (gmap string Participant)) (mo : option (gmap string MediaState)) :
    option (gmap string MediaState) :=
  match o with
  | Some m =>
      if m !! s is Some _ then
        if decide (size (delete s m) = 0) then (if drop then None else delete s <$> mo)
        else delete s <$> mo
      else mo
  | None => mo
  end.

(** Whether the disconnect handler deletes [mediaStates[roomId]]. *)
Definition drops_media (v : Server) : bool :=
  match v with WithScreenShare => true | Basic => false end.

(** Same rooms, same transport rooms, same live sockets. *)
Definition same_membership (σ σ' : State) : Prop :=
  rooms σ' = rooms σ ∧ adapter σ' = adapter σ ∧ connected σ' = connected σ.

(** Capacity (at most 10 members), no empty room, every member of a room is a
    live socket that sits in the transport room of the same name. *)
Record inv (σ : State) : Prop := mkInv {
  inv_capacity : ∀ r m, rooms σ !! r = Some m → size m ≤ 10;
  inv_nonempty : ∀ r m, rooms σ !! r = Some m → m ≠ ∅;
  inv_subscribed : ∀ r m x, rooms σ !! r = Some m → is_Some (m !! x) → x ∈ sockets_in σ r;
  inv_live : ∀ r m x, rooms σ !! r = Some m → is_Some (m !! x) → x ∈ connected σ;
}.

(** Who sits in a transport room: live sockets only, and in the room named
    [g] only the socket whose id is [g] and the members of room [g]. *)
Definition joined_only (σ : State) : Prop :=
  ∀ g x, x ∈ sockets_in σ g →
    x ∈ connected σ ∧ (x = g ∨ is_Some (member σ g x)).

(** [t] is [msg] with the surrounding white space removed: what was cut on
    either side is white space, and [t] neither starts nor ends with any. *)
Definition trimmed_of (msg t : Text) : Prop :=
  ∃ pre suf, msg = pre ++ t ++ suf ∧
    Forall (λ c, is_white_space c = true) pre ∧
    Forall (λ c, is_white_space c = true) suf ∧
    (∀ c, head t = Some c → is_white_space c = false) ∧
    (∀ c, last t = Some c → is_white_space c = false).

(** The inputs of the membership lifecycle. *)
Definition lifecycle (i : Z * Input) : bool :=
  match i.2 with
  | Connect _ | Disconnect _ => true
  | Receive _ (JoinRoom _ _ _ _) | Receive _ (LeaveRoom _) => true
  | Receive _ _ => false
  end.

(** How a room's entries in [rooms] and [mediaStates] relate.  When emptied
    rooms keep their [mediaStates] entry ([drop = false]), the entry kept is
    empty. *)
Definition entries_agree (drop : bool) (o : option (gmap string Participant))
    (mo : option (gmap string MediaState)) : Prop :=
  match o, mo with
  | Some m, Some ms => dom ms = dom m
  | None, Some ms => drop = false ∧ ms = ∅
  | None, None => True
  | Some _, None => False
  end.

Definition registries_agree (v : Server) (σ : State) : Prop :=
  ∀ r, entries_agree (drops_media v) (rooms σ !! r) (mediaStates σ !! r).

(** Every stored participant record carries the socket id it is stored under. *)
Definition stored_ids (σ : State) : Prop :=
  ∀ r m x q, rooms σ !! r = Some m → m !! x = Some q → socketId q = x.

(** Every media entry has the shape its server source writes: with the
    screen-sharing flag defined in the first source, without it in the
    second. *)
Definition media_shape (v : Server) (σ : State) : Prop :=
  ∀ r ms x m, mediaStates σ !! r = Some ms → ms !! x = Some m →
    isScreenSharing m = match v with
                        | WithScreenShare => Some (screen_flag m)
                        | Basic => None
                        end.

(** *** Keys of the registries

    [rooms] and [mediaStates] are plain JavaScript objects, so indexing them
    by one of the names below reaches what every object inherits from
    [Object.prototype], not an entry of the registry.  The finite maps of
    this model are the registries as seen through every other key.  The
    handlers accept any string as a room id; statements about the contents
    of the registries therefore say which keys they are about. *)
Definition inherited_names : list string :=
  [ "constructor"; "__proto__"; "hasOwnProperty"; "isPrototypeOf";
    "propertyIsEnumerable"; "toLocaleString"; "toString"; "valueOf";
    "__defineGetter__"; "__defineSetter__"; "__lookupGetter__";
    "__lookupSetter__" ]%string.

(** A key that names an entry of the registry itself. *)
Definition ordinary (k : string) : bool := bool_decide (k ∉ inherited_names).

(** An event whose room id (and, for a signal, sender id) is such a key. *)
Definition ordinary_event (e : ClientEvent) : bool :=
  match e with
  | JoinRoom r _ _ _ | MediaStateEv r _ _ | ScreenShare r _
  | ScreenShareStart r | ScreenShareStop r | LeaveRoom r => ordinary r
  | Signal _ from _ r => ordinary from && ordinary r
  | ScreenSignal _ _ _ _ | Chat _ _ _ => true
  end.

Definition ordinary_input (i : Z * Input) : bool :=
  match i.2 with
  | Connect s | Disconnect s => ordinary s
  | Receive s e => ordinary s && ordinary_event e
  end.

(** A trace in which the registries are only ever indexed by such keys: on
    these traces the finite maps are the whole content of the two objects. *)
Definition ordinary_trace (tr : list (Z * Input)) : bool := forallb ordinary_input tr.

(** The inputs by which sockets arrive and join rooms. *)
Definition joins_only (i : Z * Input) : bool :=
  match i.2 with
  | Connect _ | Receive _ (JoinRoom _ _ _ _) => true
  | _ => false
  end.

(** ** Concrete scenarios *)

Section scenarios.
Local Open Scope string_scope.
Local Open Scope Z_scope.

(** A socket connects and joins room [r]. *)
Definition enters (s r : string) : list (Z * Input) :=
  [ (0, Connect s); (0, Receive s (JoinRoom r s s None)) ].

(** Ten sockets in room [r]. *)
Definition full_house : list (Z * Input) :=
  enters "s0" "r" ++ enters "s1" "r" ++ enters "s2" "r" ++ enters "s3" "r"
  ++ enters "s4" "r" ++ enters "s5" "r" ++ enters "s6" "r" ++ enters "s7" "r"
  ++ enters "s8" "r" ++ enters "s9" "r".

(** A joins room [r], then its connection is lost. *)
Definition join_then_disconnect : list (Z * Input) :=
  enters "A" "r" ++ [ (1, Disconnect "A") ].

(** A and B are in room [r]. *)
Definition two_in_room : list (Z * Input) :=
  enters "A" "r" ++ enters "B" "r".

(** The signal that A addresses to [to], naming itself and room [r]. *)
Definition offer_to (to : string) : Z * Input :=
  (2, Receive "A" (Signal (Some to) "A" (JString "offer") "r")).

(** That signal as relayed: A's stored profile is attached. *)
Definition offer_relayed : Msg :=
  SignalMsg "A" (JString "offer") (Some "A") (Some "A") None.

(** A, B and C are in room [r]. *)
Definition three_in_room : list (Z * Input) :=
  enters "A" "r" ++ enters "B" "r" ++ enters "C" "r".

(** A, B and C are in room [r]; C also joins the room named by B's socket id. *)
Definition eavesdrop : list (Z * Input) :=
  three_in_room ++ [ (1, Receive "C" (JoinRoom "B" "C" "C" None)) ].

(** A joins the empty room "abc", B joins it, A's connection is lost. *)
Definition walkthrough : list (Z * Input) :=
  [ (0, Connect "A"); (1, Receive "A" (JoinRoom "abc" "u1" "Ann" None));
    (2, Connect "B"); (3, Receive "B" (JoinRoom "abc" "u2" "Bob" None));
    (4, Disconnect "A") ].
End scenarios.

(** ** Properties of the transport *)

Section transport.
Implicit Types (σ : State) (s g : string) (S : gset string).

Lemma sockets_in_join σ s g g' :
  sockets_in (socket_join s g σ) g' =
  if decide (g' = g) then {[s]} ∪ sockets_in σ g else sockets_in σ g'.
Proof.
  unfold sockets_in at 1, socket_join; simpl.
  case_decide; subst; by simplify_map_eq.
Qed.

Lemma room_del_default s (o : option (gset string)) :
  default ∅ (o ≫= room_del s) = default ∅ o ∖ {[s]}.
Proof.
  destruct o as [S|]; simpl; [|set_solver].
  unfold room_del. destruct (decide (S ∖ {[s]} = ∅)) as [E|E]; simpl; [by rewrite E|done].
Qed.

Lemma sockets_in_leave σ s g g' :
  sockets_in (socket_leave s g σ) g' =
  if decide (g' = g) then sockets_in σ g ∖ {[s]} else sockets_in σ g'.
Proof.
  unfold sockets_in, socket_leave; simpl. case_decide; subst.
  - by rewrite lookup_partial_alter_eq, room_del_default.
  - by rewrite lookup_partial_alter_ne.
Qed.

Lemma sockets_in_close σ s g :
  sockets_in (socket_close s σ) g = sockets_in σ g ∖ {[s]}.
Proof.
  unfold sockets_in, socket_close; simpl.
  by rewrite lookup_omap, room_del_default.
Qed.

Lemma sockets_in_open σ s g :
  sockets_in (socket_open s σ) g =
  if decide (g = s) then {[s]} ∪ sockets_in σ s else sockets_in σ g.
Proof. unfold socket_open. by rewrite sockets_in_join. Qed.

Lemma sockets_in_set_store σ rs ms g :
  sockets_in (set_store rs ms σ) g = sockets_in σ g.
Proof. done. Qed.

(** An emission to the others of a room depends on the transport only. *)
Lemma socket_to_emit_ext σ σ' s g m :
  sockets_in σ g ∖ {[s]} = sockets_in σ' g ∖ {[s]} →
  socket_to_emit σ s g m = socket_to_emit σ' s g m.
Proof. unfold socket_to_emit. by intros ->. Qed.

Lemma recipients_socket_to_emit σ s g m x :
  x ∈ recipients (socket_to_emit σ s g m) ↔ x ∈ sockets_in σ g ∧ x ≠ s.
Proof. simpl. rewrite elem_of_elements. set_solver. Qed.

Lemma recipients_io_to_emit σ g m x :
  x ∈ recipients (io_to_emit σ g m) ↔ x ∈ sockets_in σ g.
Proof. simpl. by rewrite elem_of_elements. Qed.
End transport.

(** ** Properties of the store operations *)

Section store.
Context {V : Type}.
Implicit Types (o : gmap string (gmap string V)) (m : gmap string V).

Lemma ensure_lookup k o k' :
  ensure k o !! k' = if decide (k' = k) then Some (default ∅ (o !! k)) else o !! k'.
Proof.
  unfold ensure. destruct (o !! k) eqn:E; case_decide; subst; by simplify_map_eq.
Qed.

Lemma alter_ensure_lookup (f : gmap string V → gmap string V) k o k' :
  alter f k (ensure k o) !! k' =
  if decide (k' = k) then Some (f (default ∅ (o !! k))) else o !! k'.
Proof.
  case_decide; subst.
  - by rewrite lookup_alter_eq, ensure_lookup, decide_True.
  - by rewrite lookup_alter_ne, ensure_lookup, decide_False.
Qed.

Lemma size_insert_le k (x : V) m : size (<[k := x]> m) ≤ S (size m).
Proof.
  destruct (m !! k) eqn:E.
  - rewrite map_size_insert_Some; [lia|done].
  - rewrite map_size_insert_None; [lia|done].
Qed.

Lemma size_delete_le k m : size (delete k m) ≤ size m.
Proof.
  destruct (m !! k) eqn:E.
  - rewrite map_size_delete_Some; [lia|done].
  - rewrite map_size_delete_None; [lia|done].
Qed.
End store.

(** ** What each handler does to the store, room by room *)

Section handlers.
Implicit Types (σ : State) (s r u d : string) (v : Server).

Lemma member_Some σ r s p :
  member σ r s = Some p ↔ ∃ m, rooms σ !! r = Some m ∧ m !! s = Some p.
Proof.
  unfold member. destruct (rooms σ !! r) as [m|]; simpl; naive_solver.
Qed.

Lemma handle_join_full v s r u d p σ :
  10 ≤ currentCount σ r →
  handle_join v s r u d p σ = (σ, [socket_emit s RoomFull]).
Proof. intros H. unfold handle_join. by rewrite decide_True. Qed.

Lemma handle_join_rooms v s r u d p σ r' :
  currentCount σ r < 10 →
  rooms (handle_join v s r u d p σ).1 !! r' =
  if decide (r' = r)
  then Some (<[s := mkParticipant s u d p]> (default ∅ (rooms σ !! r)))
  else rooms σ !! r'.
Proof.
  intros H. unfold handle_join. rewrite decide_False by lia. simpl.
  apply alter_ensure_lookup.
Qed.

Lemma handle_join_media v s r u d p σ r' :
  currentCount σ r < 10 →
  mediaStates (handle_join v s r u d p σ).1 !! r' =
  if decide (r' = r)
  then Some (<[s := default_media v]> (default ∅ (mediaStates σ !! r)))
  else mediaStates σ !! r'.
Proof.
  intros H. unfold handle_join. rewrite decide_False by lia. simpl.
  apply alter_ensure_lookup.
Qed.

Lemma handle_join_transport v s r u d p σ :
  currentCount σ r < 10 →
  (∀ g, sockets_in (handle_join v s r u d p σ).1 g =
        if decide (g = r) then {[s]} ∪ sockets_in σ r else sockets_in σ g) ∧
  connected (handle_join v s r u d p σ).1 = connected σ.
Proof.
  intros H. unfold handle_join. rewrite decide_False by lia. simpl. split; [|done].
  intros g. rewrite sockets_in_set_store. apply sockets_in_join.
Qed.

Lemma handle_leave_rooms s r σ r' :
  rooms (handle_leave s r σ).1 !! r' =
  if decide (r' = r) then rooms_without s (rooms σ !! r) else rooms σ !! r'.
Proof.
  unfold handle_leave, member, rooms_without, leave_entry.
  destruct (rooms σ !! r) as [m|] eqn:Hm; simpl.
  - destruct (m !! s) eqn:Hs; simpl.
    + rewrite lookup_alter_eq, Hm. simpl.
      destruct (decide (size (delete s m) = 0)); simpl;
        case_decide; subst; by simplify_map_eq.
    + case_decide; by subst.
  - case_decide; by subst.
Qed.

Lemma handle_leave_media s r σ r' :
  mediaStates (handle_leave s r σ).1 !! r' =
  if decide (r' = r) then media_without true s (rooms σ !! r) (mediaStates σ !! r)
  else mediaStates σ !! r'.
Proof.
  unfold handle_leave, member, media_without.
  destruct (rooms σ !! r) as [m|] eqn:Hm; simpl.
  - destruct (m !! s) eqn:Hs; simpl.
    + rewrite lookup_alter_eq, Hm. simpl.
      destruct (decide (size (delete s m) = 0)); simpl;
        case_decide; subst; simplify_map_eq; try done.
    + case_decide; by subst.
  - case_decide; by subst.
Qed.

Lemma handle_leave_transport s r σ :
  (∀ g, sockets_in (handle_leave s r σ).1 g =
        if decide (g = r ∧ is_Some (member σ r s))
        then sockets_in σ r ∖ {[s]} else sockets_in σ g) ∧
  connected (handle_leave s r σ).1 = connected σ.
Proof.
  unfold handle_leave. destruct (member σ r s) eqn:Hm.
  - split.
    + intros g. destruct (decide (size _ = 0)); simpl;
        rewrite sockets_in_set_store, sockets_in_leave;
        repeat case_decide; naive_solver.
    + by destruct (decide (size _ = 0)).
  - split; [|done]. intros g. rewrite decide_False; [done|].
    intros [_ [? ?]]; congruence.
Qed.

Lemma handle_leave_not_member s r σ :
  member σ r s = None → handle_leave s r σ = (σ, []).
Proof. intros H. unfold handle_leave. by rewrite H. Qed.

Lemma handle_leave_emits s r σ p :
  member σ r s = Some p →
  (handle_leave s r σ).2 = [socket_to_emit σ s r (UserLeft s)].
Proof.
  intros H. unfold handle_leave. rewrite H.
  by destruct (decide (size _ = 0)).
Qed.
End handlers.

(** ** The disconnect loop *)

Section disconnect.
Implicit Types (σ : State) (s r : string) (v : Server) (acc : State * list Emission).

Lemma disconnect_room_rooms v s acc r r' :
  rooms (disconnect_room v s acc r).1 !! r' =
  if decide (r' = r) then rooms_without s (rooms acc.1 !! r) else rooms acc.1 !! r'.
Proof.
  unfold disconnect_room, member, rooms_without, leave_entry.
  destruct (rooms acc.1 !! r) as [m|] eqn:Hm; simpl.
  - destruct (m !! s) eqn:Hs; simpl.
    + rewrite lookup_alter_eq, Hm. simpl.
      destruct (decide (size (delete s m) = 0)); simpl;
        case_decide; subst; by simplify_map_eq.
    + case_decide; by subst.
  - case_decide; by subst.
Qed.

Lemma disconnect_room_media v s acc r r' :
  mediaStates (disconnect_room v s acc r).1 !! r' =
  if decide (r' = r)
  then media_without (drops_media v) s (rooms acc.1 !! r) (mediaStates acc.1 !! r)
  else mediaStates acc.1 !! r'.
Proof.
  unfold disconnect_room, member, media_without.
  destruct (rooms acc.1 !! r) as [m|] eqn:Hm; simpl.
  - destruct (m !! s) eqn:Hs; simpl.
    + rewrite lookup_alter_eq, Hm. simpl.
      destruct (decide (size (delete s m) = 0)), v; simpl;
        case_decide; subst; simplify_map_eq; try done.
    + case_decide; by subst.
  - case_decide; by subst.
Qed.

Lemma disconnect_room_transport v s acc r :
  adapter (disconnect_room v s acc r).1 = adapter acc.1 ∧
  connected (disconnect_room v s acc r).1 = connected acc.1.
Proof.
  unfold disconnect_room. destruct (member acc.1 r s); [|done].
  by destruct (decide (size _ = 0)).
Qed.

Lemma disconnect_room_emits v s acc r :
  (disconnect_room v s acc r).2 =
  acc.2 ++ (if member acc.1 r s is Some _
            then [socket_to_emit acc.1 s r (UserLeft s)] else []).
Proof.
  unfold disconnect_room. destruct (member acc.1 r s).
  - by destruct (decide (size _ = 0)).
  - by rewrite app_nil_r.
Qed.

(** The loop visits every room once and treats each independently. *)
Lemma disconnect_loop v s ks acc :
  NoDup ks →
  let res := foldl (disconnect_room v s) acc ks in
  (∀ r, rooms res.1 !! r =
        if decide (r ∈ ks) then rooms_without s (rooms acc.1 !! r) else rooms acc.1 !! r) ∧
  (∀ r, mediaStates res.1 !! r =
        if decide (r ∈ ks)
        then media_without (drops_media v) s (rooms acc.1 !! r) (mediaStates acc.1 !! r)
        else mediaStates acc.1 !! r) ∧
  adapter res.1 = adapter acc.1 ∧
  connected res.1 = connected acc.1 ∧
  res.2 = acc.2 ++ ((λ r, socket_to_emit acc.1 s r (UserLeft s))
                      <$> filter (λ r, is_Some (member acc.1 r s)) ks).
Proof.
  intros Hnd. revert acc. induction Hnd as [|k ks Hk Hnd IH]; intros acc; simpl.
  - split_and!; try done.
    + by rewrite app_nil_r.
  - specialize (IH (disconnect_room v s acc k)). simpl in IH.
    destruct IH as (IHr & IHm & IHa & IHc & IHe).
    destruct (disconnect_room_transport v s acc k) as [Ha Hc].
    split_and!.
    + intros r. rewrite IHr, !disconnect_room_rooms.
      destruct (decide (r = k)) as [->|Hne].
      * rewrite decide_False by done. rewrite decide_True by left. done.
      * destruct (decide (r ∈ ks)).
        -- rewrite decide_True by (by right). done.
        -- rewrite decide_False; [done|]. by intros [?|?]%elem_of_cons.
    + intros r. rewrite IHm, !disconnect_room_rooms, !disconnect_room_media.
      destruct (decide (r = k)) as [->|Hne].
      * rewrite decide_False by done. rewrite decide_True by left. done.
      * destruct (decide (r ∈ ks)).
        -- rewrite decide_True by (by right). done.
        -- rewrite decide_False; [done|]. by intros [?|?]%elem_of_cons.
    + congruence.
    + congruence.
    + rewrite IHe, disconnect_room_emits, <- app_assoc. f_equal.
      rewrite filter_cons.
      assert (Hrest :
        (λ r, socket_to_emit (disconnect_room v s acc k).1 s r (UserLeft s))
          <$> filter (λ r, is_Some (member (disconnect_room v s acc k).1 r s)) ks
        = (λ r, socket_to_emit acc.1 s r (UserLeft s))
          <$> filter (λ r, is_Some (member acc.1 r s)) ks).
      { clear IHr IHm IHe IHa IHc.
        assert (Hmem : ∀ r, r ∈ ks →
                  member (disconnect_room v s acc k).1 r s = member acc.1 r s).
        { intros r Hr. unfold member. rewrite disconnect_room_rooms.
          rewrite decide_False; [done|]. by intros ->. }
        induction ks as [|k' ks IHks]; [done|].
        apply NoDup_cons in Hnd as [? ?].
        rewrite !filter_cons, Hmem by left.
        assert (k ∉ ks) by (intros ?; apply Hk; by right).
        assert (∀ r, r ∈ ks →
                  member (disconnect_room v s acc k).1 r s = member acc.1 r s)
          by (intros; apply Hmem; by right).
        destruct (decide (is_Some (member acc.1 k' s))); simpl.
        - f_equal; [|by apply IHks].
          apply socket_to_emit_ext. unfold sockets_in. by rewrite Ha.
        - by apply IHks. }
      rewrite Hrest.
      destruct (member acc.1 k s) eqn:Hm.
      * rewrite decide_True by done. done.
      * rewrite decide_False by (by intros [? ?]). done.
Qed.

(** The state after the disconnect handler, room by room. *)
Lemma handle_disconnect_spec v s σ :
  let res := handle_disconnect v s σ in
  (∀ r, rooms res.1 !! r = rooms_without s (rooms σ !! r)) ∧
  (∀ r, mediaStates res.1 !! r =
        media_without (drops_media v) s (rooms σ !! r) (mediaStates σ !! r)) ∧
  (∀ g, sockets_in res.1 g = sockets_in σ g ∖ {[s]}) ∧
  connected res.1 = connected σ ∖ {[s]} ∧
  (∀ e, e ∈ res.2 ↔
        ∃ r, is_Some (member σ r s) ∧ e = socket_to_emit σ s r (UserLeft s)).
Proof.
  unfold handle_disconnect.
  pose proof (disconnect_loop v s (map_to_list (rooms σ)).*1 (socket_close s σ, [])
                (NoDup_fst_map_to_list _)) as (Hr & Hm & Ha & Hc & He).
  simpl in *. split_and!.
  - intros r. rewrite Hr. case_decide as Hin; [done|].
    assert (rooms σ !! r = None) as ->; [|done].
    apply not_elem_of_dom. intros Hd. apply Hin.
    apply elem_of_dom in Hd as [m Hd].
    apply list_elem_of_fmap. exists (r, m). split; [done|].
    by apply elem_of_map_to_list.
  - intros r. rewrite Hm. case_decide as Hin; [done|].
    assert (rooms σ !! r = None) as ->; [|done].
    apply not_elem_of_dom. intros Hd. apply Hin.
    apply elem_of_dom in Hd as [m Hd].
    apply list_elem_of_fmap. exists (r, m). split; [done|].
    by apply elem_of_map_to_list.
  - intros g. unfold sockets_in at 1. rewrite Ha. apply sockets_in_close.
  - done.
  - intros e. rewrite He. rewrite list_elem_of_fmap. split.
    + intros (r & -> & Hin). apply list_elem_of_filter in Hin as [Hmem _].
      exists r. split; [done|].
      apply socket_to_emit_ext. rewrite sockets_in_close. set_solver.
    + intros (r & Hmem & ->). exists r. split.
      * apply socket_to_emit_ext. rewrite sockets_in_close. set_solver.
      * apply list_elem_of_filter. split; [done|].
        destruct Hmem as [p Hp]. apply member_Some in Hp as (m & Hm' & _).
        apply list_elem_of_fmap. exists (r, m). split; [done|].
        by apply elem_of_map_to_list.
Qed.
End disconnect.

(** ** Handlers that leave membership alone *)

Section frame.
Implicit Types (σ : State) (s r : string) (v : Server).

Lemma handle_signal_state to from sg r σ : (handle_signal to from sg r σ).1 = σ.
Proof.
  unfold handle_signal. destruct (negb (truthy sg) || negb (truthy_string to)); [done|].
  by destruct to.
Qed.

Lemma handle_screen_signal_state to from sg σ : (handle_screen_signal to from sg σ).1 = σ.
Proof. by destruct to. Qed.

Lemma handle_media_state_frame v s r a vd σ :
  same_membership σ (handle_media_state v s r a vd σ).1.
Proof. done. Qed.

Lemma set_sharing_frame s r b σ : same_membership σ (set_sharing s r b σ).
Proof. done. Qed.

(** The screen sharing handlers write into an existing entry only. *)
Lemma set_sharing_dom s r b σ :
  dom <$> mediaStates (set_sharing s r b σ) = dom <$> mediaStates σ.
Proof.
  apply map_eq. intros r'. unfold set_sharing; simpl. rewrite !lookup_fmap.
  destruct (decide (r' = r)) as [->|Hne].
  - rewrite lookup_alter_eq. destruct (mediaStates σ !! r) as [ms|]; simpl; [|done].
    f_equal. apply set_eq. intros x. rewrite !elem_of_dom.
    destruct (decide (x = s)) as [->|Hx].
    + rewrite lookup_alter_eq. by rewrite fmap_is_Some.
    + by rewrite lookup_alter_ne.
  - by rewrite lookup_alter_ne.
Qed.

Lemma handle_media_state_media v s r a vd σ r' :
  mediaStates (handle_media_state v s r a vd σ).1 !! r' =
  if decide (r' = r)
  then Some (<[s := {| audioEnabled := default (audioEnabled
                         (default (default_media v) (media_of σ r s))) a;
                       videoEnabled := default (videoEnabled
                         (default (default_media v) (media_of σ r s))) vd;
                       isScreenSharing :=
                         match v with
                         | WithScreenShare =>
                             Some (screen_flag (default (default_media v) (media_of σ r s)))
                         | Basic => None
                         end |}]> (default ∅ (mediaStates σ !! r)))
  else mediaStates σ !! r'.
Proof.
  unfold handle_media_state; simpl. rewrite alter_ensure_lookup.
  case_decide; [|done]. subst.
  assert (ensure r (mediaStates σ) !! r ≫= (.!! s) = media_of σ r s) as ->; [|done].
  unfold media_of. rewrite ensure_lookup, decide_True by done.
  destruct (mediaStates σ !! r); simpl; [done|]. by rewrite lookup_empty.
Qed.

(** What [media:state] broadcasts: the merged audio and video flags. *)
Lemma handle_media_state_emits v s r a vd σ :
  (handle_media_state v s r a vd σ).2 =
  [ socket_to_emit σ s r
      (MediaStateMsg s
         (default (audioEnabled (default (default_media v) (media_of σ r s))) a)
         (default (videoEnabled (default (default_media v) (media_of σ r s))) vd)) ].
Proof.
  unfold handle_media_state; simpl. f_equal.
  assert (ensure r (mediaStates σ) !! r ≫= (.!! s) = media_of σ r s) as ->; [|done].
  unfold media_of. rewrite ensure_lookup, decide_True by done.
  destruct (mediaStates σ !! r); simpl; [done|]. by rewrite lookup_empty.
Qed.
End frame.

(** ** Invariants of the reachable states

    These are invariants of the finite maps; they are invariants of the two
    JavaScript objects on the traces that are [ordinary_trace]. *)

Section invariants.
Implicit Types (σ : State) (s r : string) (v : Server).

Lemma inv_init : inv init.
Proof. split; intros r m; unfold init; simpl; by rewrite lookup_empty. Qed.

Lemma inv_same_membership σ σ' : same_membership σ σ' → inv σ → inv σ'.
Proof.
  intros (Hr & Ha & Hc) [H1 H2 H3 H4].
  split; unfold sockets_in; rewrite ?Hr, ?Ha, ?Hc; eauto.
Qed.

Lemma rooms_without_Some s (o : option (gmap string Participant)) m' :
  rooms_without s o = Some m' →
  ∃ m, o = Some m ∧ size m' ≤ size m ∧ m' ≠ ∅ ∨ o = Some m ∧ m' = m ∧ m !! s = None.
Proof.
  unfold rooms_without, leave_entry. destruct o as [m|]; simpl; [|done].
  destruct (m !! s) eqn:Hs.
  - case_decide as Hz; [done|]. intros [= <-]. exists m. left. split_and!; [done| |].
    + apply size_delete_le.
    + intros He. rewrite He, map_size_empty in Hz. done.
  - intros [= <-]. exists m. by right.
Qed.

Lemma rooms_without_member s (o : option (gmap string Participant)) m' x :
  rooms_without s o = Some m' → is_Some (m' !! x) →
  ∃ m, o = Some m ∧ is_Some (m !! x) ∧ x ≠ s ∨ o = Some m ∧ m' = m ∧ m !! s = None.
Proof.
  unfold rooms_without, leave_entry. destruct o as [m|]; simpl; [|done].
  destruct (m !! s) eqn:Hs.
  - case_decide as Hz; [done|]. intros [= <-] Hx. exists m. left.
    destruct (decide (x = s)) as [->|Hne].
    + rewrite lookup_delete_eq in Hx. by destruct Hx.
    + by rewrite lookup_delete_ne in Hx.
  - intros [= <-] Hx. exists m. by right.
Qed.

Lemma inv_join v s r u d p σ :
  s ∈ connected σ → inv σ → inv (handle_join v s r u d p σ).1.
Proof.
  intros Hs Hinv. destruct (decide (10 ≤ currentCount σ r)) as [Hfull|Hfree].
  { by rewrite handle_join_full. }
  assert (Hlt : currentCount σ r < 10) by lia.
  destruct (handle_join_transport v s r u d p σ Hlt) as [Hg Hc].
  destruct Hinv as [H1 H2 H3 H4].
  assert (Hsz : size (default ∅ (rooms σ !! r)) = currentCount σ r).
  { unfold currentCount. destruct (rooms σ !! r); [done|]. apply map_size_empty. }
  split; intros r' m; rewrite handle_join_rooms by done; case_decide; subst.
  - intros [= <-]. pose proof (size_insert_le s (mkParticipant s u d p)
                                 (default ∅ (rooms σ !! r))). lia.
  - eauto.
  - intros [= <-]. apply insert_non_empty.
  - eauto.
  - intros x [= <-] Hx. rewrite Hg, decide_True by done.
    destruct (decide (x = s)) as [->|Hne]; [set_solver|].
    rewrite lookup_insert_ne in Hx by done.
    destruct (rooms σ !! r) as [m0|] eqn:Hm0; simpl in Hx.
    + apply elem_of_union_r. eauto.
    + rewrite lookup_empty in Hx. by destruct Hx.
  - intros x Hm Hx. rewrite Hg, decide_False by done. eauto.
  - intros x [= <-] Hx. rewrite Hc.
    destruct (decide (x = s)) as [->|Hne]; [done|].
    rewrite lookup_insert_ne in Hx by done.
    destruct (rooms σ !! r) as [m0|] eqn:Hm0; simpl in Hx.
    + eauto.
    + rewrite lookup_empty in Hx. by destruct Hx.
  - intros x Hm Hx. rewrite Hc. eauto.
Qed.

Lemma inv_leave s r σ : inv σ → inv (handle_leave s r σ).1.
Proof.
  intros [H1 H2 H3 H4]. destruct (handle_leave_transport s r σ) as [Hg Hc].
  split; intros r' m; rewrite handle_leave_rooms; case_decide; subst.
  - intros (m0 & [(Hm0 & Hsz & _)|(Hm0 & -> & _)])%rooms_without_Some; [|by eauto].
    specialize (H1 _ _ Hm0). lia.
  - eauto.
  - intros (m0 & [(Hm0 & _ & Hne)|(Hm0 & -> & _)])%rooms_without_Some; eauto.
  - eauto.
  - intros x Hm Hx. rewrite Hg.
    destruct (rooms_without_member _ _ _ _ Hm Hx)
      as (m0 & [(Hm0 & Hx0 & Hne)|(Hm0 & -> & Hs)]).
    + case_decide; [|by eauto]. apply elem_of_difference. split; [by eauto|set_solver].
    + rewrite decide_False; [by eauto|].
      intros [_ [p Hp]]. apply member_Some in Hp as (? & ? & ?). congruence.
  - intros x Hm Hx. rewrite Hg. rewrite decide_False by naive_solver. eauto.
  - intros x Hm Hx. rewrite Hc.
    destruct (rooms_without_member _ _ _ _ Hm Hx)
      as (m0 & [(Hm0 & Hx0 & Hne)|(Hm0 & -> & Hs)]); eauto.
  - intros x Hm Hx. rewrite Hc. eauto.
Qed.

Lemma inv_disconnect v s σ : inv σ → inv (handle_disconnect v s σ).1.
Proof.
  intros [H1 H2 H3 H4].
  destruct (handle_disconnect_spec v s σ) as (Hr & _ & Hg & Hc & _).
  split; intros r m; rewrite Hr.
  - intros (m0 & [(Hm0 & Hsz & _)|(Hm0 & -> & _)])%rooms_without_Some; [|by eauto].
    specialize (H1 _ _ Hm0). lia.
  - intros (m0 & [(Hm0 & _ & Hne)|(Hm0 & -> & _)])%rooms_without_Some; eauto.
  - intros x Hm Hx. rewrite Hg. apply elem_of_difference.
    destruct (rooms_without_member _ _ _ _ Hm Hx)
      as (m0 & [(Hm0 & Hx0 & Hne)|(Hm0 & -> & Hs)]).
    + split; [by eauto|set_solver].
    + split; [by eauto|]. intros ->%elem_of_singleton.
      rewrite Hs in Hx. by destruct Hx.
  - intros x Hm Hx. rewrite Hc. apply elem_of_difference.
    destruct (rooms_without_member _ _ _ _ Hm Hx)
      as (m0 & [(Hm0 & Hx0 & Hne)|(Hm0 & -> & Hs)]).
    + split; [by eauto|set_solver].
    + split; [by eauto|]. intros ->%elem_of_singleton.
      rewrite Hs in Hx. by destruct Hx.
Qed.

Lemma inv_open s σ : inv σ → inv (socket_open s σ).
Proof.
  intros [H1 H2 H3 H4]. split; try done.
  - intros r m x Hm Hx. rewrite sockets_in_open.
    case_decide; subst; [apply elem_of_union_r|]; eapply H3; eauto.
  - intros r m x Hm Hx. simpl. apply elem_of_union_r. eapply H4; eauto.
Qed.

Lemma inv_handle v now s e σ : s ∈ connected σ → inv σ → inv (handle v now s e σ).1.
Proof.
  intros Hs Hinv. destruct e; simpl.
  - by apply inv_join.
  - by rewrite handle_signal_state.
  - eapply inv_same_membership; [apply handle_media_state_frame|done].
  - destruct v; [|done]. eapply inv_same_membership; [|done].
    apply set_sharing_frame.
  - destruct v; [|done]. eapply inv_same_membership; [|done].
    apply set_sharing_frame.
  - destruct v; [|done]. eapply inv_same_membership; [|done].
    apply set_sharing_frame.
  - destruct v; [|done]. by rewrite handle_screen_signal_state.
  - by apply inv_leave.
  - done.
Qed.

Lemma inv_step v σ i : inv σ → inv (step v σ i).1.
Proof.
  intros Hinv. unfold step. destruct i as [now [s|s e|s]]; simpl; case_decide; try done.
  - by apply inv_open.
  - by apply inv_handle.
  - by apply inv_disconnect.
Qed.

Lemma run_from_snoc v σ tr i :
  run_from v σ (tr ++ [i]) =
  ((step v (run_from v σ tr).1 i).1, (run_from v σ tr).2 ++ (step v (run_from v σ tr).1 i).2).
Proof. unfold run_from. by rewrite foldl_app. Qed.

Lemma inv_run_from v σ tr : inv σ → inv (run_from v σ tr).1.
Proof.
  intros Hinv. induction tr as [|i tr IH] using rev_ind; [done|].
  rewrite run_from_snoc. by apply inv_step.
Qed.

(** Every state reached from the initial one satisfies the invariants. *)
Lemma inv_state_after v tr : inv (state_after v tr).
Proof. apply inv_run_from, inv_init. Qed.
End invariants.

(** ** Removing a member from a room's entries *)

Section removal.
Implicit Types (σ : State) (s r : string) (v : Server).

Lemma rooms_without_lookup s (o : option (gmap string Participant)) :
  rooms_without s o ≫= (.!! s) = None.
Proof.
  unfold rooms_without, leave_entry. destruct o as [m|]; simpl; [|done].
  destruct (m !! s) eqn:Hs; simpl; [|done].
  case_decide; simpl; [done|]. apply lookup_delete_eq.
Qed.

Lemma rooms_without_other s x (o : option (gmap string Participant)) :
  x ≠ s → is_Some (rooms_without s o ≫= (.!! x)) → is_Some (o ≫= (.!! x)).
Proof.
  intros Hne. unfold rooms_without, leave_entry. destruct o as [m|]; simpl; [|done].
  destruct (m !! s) eqn:Hs; simpl; [|done].
  case_decide; simpl; [by intros [? ?]|]. by rewrite lookup_delete_ne.
Qed.

Lemma rooms_without_id s (o : option (gmap string Participant)) :
  o ≫= (.!! s) = None → rooms_without s o = o.
Proof.
  unfold rooms_without. destruct o as [m|]; simpl; [|done]. by intros ->.
Qed.

Lemma media_without_id drop s (o : option (gmap string Participant)) mo :
  o ≫= (.!! s) = None → media_without drop s o mo = mo.
Proof.
  unfold media_without. destruct o as [m|]; simpl; [|done]. by intros ->.
Qed.

Lemma media_without_lookup drop s (o : option (gmap string Participant)) mo :
  is_Some (o ≫= (.!! s)) → media_without drop s o mo ≫= (.!! s) = None.
Proof.
  unfold media_without. destruct o as [m|]; simpl; [|by intros [? ?]].
  intros [p ->]. assert ((delete s <$> mo) ≫= (.!! s) = None) as Hdel.
  { destruct mo as [ms|]; simpl; [|done]. apply lookup_delete_eq. }
  case_decide; [|done]. by destruct drop.
Qed.

(** A room left by everybody but [s] is emptied by the removal of [s]. *)
Lemma rooms_without_alone s (m : gmap string Participant) :
  is_Some (m !! s) → (∀ x, x ≠ s → m !! x = None) → rooms_without s (Some m) = None.
Proof.
  intros [p Hs] Halone. unfold rooms_without, leave_entry; simpl. rewrite Hs.
  rewrite decide_True; [done|]. apply map_size_empty_iff, map_eq. intros x.
  rewrite lookup_empty. destruct (decide (x = s)) as [->|Hne].
  - apply lookup_delete_eq.
  - rewrite lookup_delete_ne by done. by apply Halone.
Qed.
End removal.

(** ** Who is in a transport room *)

Section transport_rooms.
Implicit Types (σ : State) (s r : string) (v : Server).

Lemma rooms_without_keeps s x (o : option (gmap string Participant)) :
  x ≠ s → is_Some (o ≫= (.!! x)) → is_Some (rooms_without s o ≫= (.!! x)).
Proof.
  intros Hne. unfold rooms_without, leave_entry. destruct o as [m|]; simpl; [|done].
  intros Hx. destruct (m !! s) eqn:Hs; simpl; [|done].
  assert (is_Some (delete s m !! x)) as Hd by (by rewrite lookup_delete_ne).
  case_decide as Hz; simpl; [|done].
  apply map_size_empty_inv in Hz. rewrite Hz, lookup_empty in Hd. by destruct Hd.
Qed.

Lemma joined_only_init : joined_only init.
Proof. intros g x. unfold sockets_in, init; simpl. rewrite lookup_empty. set_solver. Qed.

Lemma joined_only_same_membership σ σ' :
  same_membership σ σ' → joined_only σ → joined_only σ'.
Proof.
  intros (Hr & Ha & Hc) H g x. unfold sockets_in, member. rewrite Hr, Ha, Hc. apply H.
Qed.

Lemma joined_only_join v s r u d p σ :
  s ∈ connected σ → joined_only σ → joined_only (handle_join v s r u d p σ).1.
Proof.
  intros Hs H. destruct (decide (10 ≤ currentCount σ r)) as [Hfull|Hfree].
  { by rewrite handle_join_full. }
  assert (Hlt : currentCount σ r < 10) by lia.
  destruct (handle_join_transport v s r u d p σ Hlt) as [Hg Hc].
  intros g x. rewrite Hg, Hc. unfold member. rewrite handle_join_rooms by done.
  case_decide; subst; simpl.
  - intros [->%elem_of_singleton | Hx]%elem_of_union.
    + split; [done|]. right. by rewrite lookup_insert_eq.
    + destruct (H _ _ Hx) as [Hcx Hor]. split; [done|].
      destruct Hor as [->|Hmem]; [by left|right].
      destruct (decide (x = s)) as [->|Hne]; [by rewrite lookup_insert_eq|].
      rewrite lookup_insert_ne by done. unfold member in Hmem.
      by destruct (rooms σ !! r).
  - apply H.
Qed.

Lemma joined_only_leave s r σ : joined_only σ → joined_only (handle_leave s r σ).1.
Proof.
  intros H. destruct (handle_leave_transport s r σ) as [Hg Hc].
  intros g x. rewrite Hg, Hc.
  destruct (decide (g = r ∧ is_Some (member σ r s))) as [[-> Hm]|Hno].
  - intros [Hx Hne]%elem_of_difference.
    destruct (H _ _ Hx) as [Hcx Hor]. split; [done|].
    destruct Hor as [->|Hmem]; [by left|right].
    unfold member. rewrite handle_leave_rooms, decide_True by done.
    apply rooms_without_keeps; [set_solver|done].
  - intros Hx. destruct (H _ _ Hx) as [Hcx Hor]. split; [done|].
    destruct Hor as [->|Hmem]; [by left|right].
    unfold member. rewrite handle_leave_rooms. case_decide; subst; [|done].
    rewrite rooms_without_id; [done|].
    destruct (member σ r s) eqn:E; [|done]. destruct Hno. eauto.
Qed.

Lemma joined_only_disconnect v s σ :
  joined_only σ → joined_only (handle_disconnect v s σ).1.
Proof.
  intros H. destruct (handle_disconnect_spec v s σ) as (Hr & _ & Hg & Hc & _).
  intros g x. rewrite Hg, Hc. unfold member. rewrite Hr.
  intros [Hx Hne]%elem_of_difference. destruct (H _ _ Hx) as [Hcx Hor].
  split; [set_solver|]. destruct Hor as [->|Hmem]; [by left|right].
  apply rooms_without_keeps; [set_solver|done].
Qed.

Lemma joined_only_open s σ : joined_only σ → joined_only (socket_open s σ).
Proof.
  intros H g x. rewrite sockets_in_open. unfold member; simpl. case_decide; subst.
  - intros [->%elem_of_singleton | Hx]%elem_of_union; [set_solver|].
    destruct (H _ _ Hx). set_solver.
  - intros Hx. destruct (H _ _ Hx). set_solver.
Qed.

Lemma joined_only_step v σ i : joined_only σ → joined_only (step v σ i).1.
Proof.
  intros H. unfold step. destruct i as [now [s|s e|s]]; simpl; case_decide; try done.
  - by apply joined_only_open.
  - destruct e; simpl.
    + by apply joined_only_join.
    + by rewrite handle_signal_state.
    + eapply joined_only_same_membership; [apply handle_media_state_frame|done].
    + destruct v; [|done]. eapply joined_only_same_membership; [|done].
      apply set_sharing_frame.
    + destruct v; [|done]. eapply joined_only_same_membership; [|done].
      apply set_sharing_frame.
    + destruct v; [|done]. eapply joined_only_same_membership; [|done].
      apply set_sharing_frame.
    + destruct v; [|done]. by rewrite handle_screen_signal_state.
    + by apply joined_only_leave.
    + done.
  - by apply joined_only_disconnect.
Qed.

(** In every reachable state a transport room holds live sockets only: the
    socket of that id and the members of the room of that name. *)
Lemma joined_only_state_after v tr : joined_only (state_after v tr).
Proof.
  unfold state_after, run. induction tr as [|i tr IH] using rev_ind.
  - apply joined_only_init.
  - rewrite run_from_snoc. by apply joined_only_step.
Qed.
End transport_rooms.

(** ** Agreement of the two registries under join, leave and disconnect *)

Section agreement.
Implicit Types (σ : State) (s r : string) (v : Server).

Lemma entries_agree_join drop s (p : Participant) (ms0 : MediaState) o mo :
  entries_agree drop o mo →
  entries_agree drop (Some (<[s := p]> (default ∅ o))) (Some (<[s := ms0]> (default ∅ mo))).
Proof.
  destruct o as [m|], mo as [ms|]; simpl; try done.
  - intros H. by rewrite !dom_insert_L, H.
  - intros [_ ->]. by rewrite !dom_insert_L, !dom_empty_L.
  - intros _. by rewrite !dom_insert_L, !dom_empty_L.
Qed.

Lemma entries_agree_without drop drop' s o mo :
  (drop' = false → drop = false) →
  entries_agree drop o mo →
  entries_agree drop (rooms_without s o) (media_without drop' s o mo).
Proof.
  intros Hd. destruct o as [m|]; simpl; [|done].
  destruct mo as [ms|]; simpl; [|done]. intros Hdom.
  unfold leave_entry. destruct (m !! s) eqn:Hs; [|done].
  case_decide as Hz.
  - destruct drop'; simpl; [done|]. split; [by apply Hd|].
    apply map_size_empty_inv in Hz. apply dom_empty_inv_L.
    by rewrite dom_delete_L, Hdom, <- dom_delete_L, Hz, dom_empty_L.
  - simpl. by rewrite !dom_delete_L, Hdom.
Qed.

Lemma registries_agree_init v : registries_agree v init.
Proof. intros r. unfold init; simpl. by rewrite !lookup_empty. Qed.

Lemma registries_agree_step v σ i :
  lifecycle i = true → registries_agree v σ → registries_agree v (step v σ i).1.
Proof.
  intros Hl Hag. unfold step. destruct i as [now [s|s e|s]]; simpl in *.
  - by case_decide.
  - case_decide; [|done]. destruct e; try done; simpl.
    + destruct (decide (10 ≤ currentCount σ room)).
      { by rewrite handle_join_full. }
      intros r. rewrite handle_join_rooms, handle_join_media by lia.
      case_decide; subst; [|done]. by apply entries_agree_join.
    + intros r. rewrite handle_leave_rooms, handle_leave_media.
      case_decide; subst; [|done]. apply entries_agree_without; [|done].
      by destruct v.
  - case_decide; [|done].
    destruct (handle_disconnect_spec v s σ) as (Hr & Hm & _).
    intros r. rewrite Hr, Hm. by apply entries_agree_without.
Qed.

Lemma registries_agree_run v tr :
  Forall (λ i, lifecycle i = true) tr → registries_agree v (state_after v tr).
Proof.
  unfold state_after, run. induction tr as [|i tr IH] using rev_ind; intros Hl.
  - apply registries_agree_init.
  - apply Forall_app in Hl as [Htr Hi]. rewrite Forall_singleton in Hi.
    rewrite run_from_snoc. apply registries_agree_step; [exact Hi|]. by apply IH.
Qed.


(** X9.  After joins, leaves and disconnects, in the first server source no
    [mediaStates] entry outlives its room. *)
Lemma no_stale_media_entry tr r :
  Forall (λ i, lifecycle i = true) tr →
  rooms (state_after WithScreenShare tr) !! r = None →
  mediaStates (state_after WithScreenShare tr) !! r = None.
Proof.
  intros Hl Hm. pose proof (registries_agree_run WithScreenShare tr Hl r) as H.
  rewrite Hm in H.
  destruct (mediaStates (state_after WithScreenShare tr) !! r) as [ms|]; [|done].
  by destruct H.
Qed.
End agreement.


(** ** Room capacity *)

(** C1.  After any sequence of connections and [join:room] events, whatever
    the sockets and room ids, no room holds more than 10 participants; a
    join to a room that already holds 10 leaves the whole state as it was
    (neither registry gains an entry) and emits exactly one event,
    [room:full], delivered to the requester and nobody else. *)
Theorem join_room_capacity (v : Server) (tr : list (Z * Input)) (r : string) :
  (forallb joins_only tr = true → currentCount (state_after v tr) r ≤ 10) ∧
  ∀ (σ : State) (s u d : string) (p : option string),
    10 ≤ currentCount σ r →
    handle_join v s r u d p σ =
      (σ, [ {| target := ToSocket s; payload := RoomFull; recipients := [s] |} ]).
Proof.
  split.
  - intros _. unfold currentCount.
    destruct (rooms (state_after v tr) !! r) as [m|] eqn:Hm; [|lia].
    by eapply inv_capacity; [apply inv_state_after|].
  - intros σ s u d p Hfull. by apply handle_join_full.
Qed.

Lemma join_room_capacity_witness :
  currentCount (state_after WithScreenShare full_house) "r" = 10 ∧
  currentCount (state_after WithScreenShare (full_house ++ enters "s10" "r")) "r" ≤ 10 ∧
  handle_join WithScreenShare "s10" "r" "u10" "n10" None
    (state_after WithScreenShare full_house) =
  (state_after WithScreenShare full_house,
   [ {| target := ToSocket "s10"; payload := RoomFull; recipients := ["s10"] |} ]).
Proof.
  split_and!; [by vm_compute| |].
  - apply (proj1 (join_room_capacity WithScreenShare (full_house ++ enters "s10" "r") "r")).
    by vm_compute.
  - apply (proj2 (join_room_capacity WithScreenShare [] "r")).
    vm_compute. lia.
Defined.

(** ** Registries after the last member's connection is lost *)

(** C2 (second server source).  A joins room "r" and is then disconnected:
    the room is deleted from [rooms], yet [mediaStates] keeps an entry for
    it.  The [leave:room] handler of the same source, and the disconnect
    handler of the first source, delete that entry. *)
Theorem basic_disconnect_keeps_media_entry :
  rooms (state_after Basic join_then_disconnect) !! "r" = None ∧
  mediaStates (state_after Basic join_then_disconnect) !! "r" = Some ∅ ∧
  mediaStates (state_after WithScreenShare join_then_disconnect) !! "r" = None ∧
  mediaStates (state_after Basic
                 (enters "A" "r" ++ [ (1%Z, Receive "A" (LeaveRoom "r")) ])) !! "r" = None.
Proof. by vm_compute. Qed.

(** ** Deletion of emptied rooms *)

Section listing.
Implicit Types (σ : State) (s r : string) (v : Server).

Lemma elem_of_others s (m : gmap string Participant) x :
  x ∈ others s m ↔
  ∃ id info, m !! id = Some info ∧ id ≠ s ∧
    x = mkParticipant id (userId info) (displayName info) (photoURL info).
Proof.
  unfold others. rewrite list_elem_of_fmap. split.
  - intros ([id info] & -> & Hin). apply list_elem_of_filter in Hin as [Hne Hin].
    apply elem_of_map_to_list in Hin. by exists id, info.
  - intros (id & info & Hm & Hne & ->). exists (id, info). split; [done|].
    apply list_elem_of_filter. split; [done|]. by apply elem_of_map_to_list.
Qed.

(** A room whose only member is the asker lists nobody. *)
Lemma others_alone s (p : Participant) : others s (<[s := p]> ∅) = [].
Proof.
  apply elem_of_nil_inv. intros x (id & info & Hm & Hne & _)%elem_of_others.
  rewrite lookup_insert_ne in Hm by done. by rewrite lookup_empty in Hm.
Qed.

Lemma others_empty s : others s ∅ = [].
Proof.
  apply elem_of_nil_inv. intros x (id & info & Hm & _)%elem_of_others.
  by rewrite lookup_empty in Hm.
Qed.

Lemma handle_join_emits v s r u d p σ :
  currentCount σ r < 10 →
  (handle_join v s r u d p σ).2 =
  [ socket_emit s
      (RoomJoined r (others s (<[s := mkParticipant s u d p]> (default ∅ (rooms σ !! r)))));
    socket_emit s
      (MediaStates (<[s := default_media v]> (default ∅ (mediaStates σ !! r))));
    socket_to_emit (handle_join v s r u d p σ).1 s r (UserJoined (mkParticipant s u d p)) ].
Proof.
  intros H. unfold handle_join. rewrite decide_False by lia. simpl.
  by rewrite !alter_ensure_lookup, !decide_True.
Qed.

Lemma rooms_without_last s (p : Participant) : rooms_without s (Some {[s := p]}) = None.
Proof.
  unfold rooms_without, leave_entry; simpl. rewrite lookup_singleton_eq.
  by rewrite delete_singleton_eq, map_size_empty, decide_True.
Qed.
End listing.

(** X26.  Rooms that are entries of the registry are removed with their last
    member.  On a trace that indexes the registries by ordinary keys only,
    when room [r] holds the single member [s] and [s] leaves it or is
    disconnected, the state reached has no room [r]: the registry [rooms]
    has no entry for it (nor has [mediaStates], after a leave and, in the
    first server source, after a disconnect), the listing of its other
    members is empty for whoever asks, and a fresh join to [r] is answered
    with [room:joined] carrying an empty [existingUsers].  A room whose id is
    an inherited name is outside this statement: the [for .. in] loop of the
    disconnect handler never visits it. *)
Theorem last_member_removed (v : Server) (tr : list (Z * Input)) (σ σ' : State)
    (s r : string) (p : Participant) :
  σ = state_after v tr → ordinary_trace tr = true →
  ordinary r = true → ordinary s = true →
  rooms σ !! r = Some {[s := p]} →
  σ' = (handle_leave s r σ).1 ∨ σ' = (handle_disconnect v s σ).1 →
  rooms σ' !! r = None ∧
  (σ' = (handle_leave s r σ).1 ∨ v = WithScreenShare → mediaStates σ' !! r = None) ∧
  (∀ x, others x (default ∅ (rooms σ' !! r)) = []) ∧
  (∀ s' u d ph, ∃ rest,
     (handle_join v s' r u d ph σ').2 = socket_emit s' (RoomJoined r []) :: rest).
Proof.
  intros _ _ _ _ Hroom Hσ'.
  assert (Hgone : rooms σ' !! r = None).
  { destruct Hσ' as [-> | ->].
    - by rewrite handle_leave_rooms, decide_True, Hroom, rooms_without_last.
    - destruct (handle_disconnect_spec v s σ) as (Hr & _).
      by rewrite Hr, Hroom, rooms_without_last. }
  split_and!; [done| | |].
  - assert (Hdel : media_without true s (rooms σ !! r) (mediaStates σ !! r) = None).
    { rewrite Hroom. unfold media_without. rewrite lookup_singleton_eq.
      by rewrite delete_singleton_eq, map_size_empty, decide_True. }
    intros Hcase. destruct Hσ' as [-> | ->].
    + by rewrite handle_leave_media, decide_True.
    + destruct Hcase as [Heq | ->].
      * rewrite Heq. by rewrite handle_leave_media, decide_True.
      * destruct (handle_disconnect_spec WithScreenShare s σ) as (_ & Hm & _).
        by rewrite Hm.
  - intros x. rewrite Hgone. apply others_empty.
  - intros s' u d ph. eexists.
    rewrite handle_join_emits.
    + rewrite Hgone; simpl. rewrite others_alone. reflexivity.
    + unfold currentCount. rewrite Hgone. lia.
Qed.

Lemma last_member_removed_witness :
  rooms (state_after Basic join_then_disconnect) !! "r" = None ∧
  ∃ rest,
    (handle_join Basic "B" "r" "u2" "Bob" None
       (state_after Basic join_then_disconnect)).2
    = socket_emit "B" (RoomJoined "r" []) :: rest.
Proof.
  destruct (last_member_removed Basic (enters "A" "r")
              (state_after Basic (enters "A" "r"))
              (state_after Basic join_then_disconnect) "A" "r"
              (mkParticipant "A" "A" "A" None)) as (Hgone & _ & _ & Hjoin).
  - reflexivity.
  - by vm_compute.
  - by vm_compute.
  - by vm_compute.
  - by vm_compute.
  - right. by vm_compute.
  - split; [exact Hgone|]. apply Hjoin.
Defined.

(** ** Leaving and disconnecting *)


(** X27.  On a trace that indexes the registries by ordinary keys only, when
    the connection of a member [s] of room [r] is lost, the disconnect handler
    does for [r] what [leave:room] does: [s] is removed from both registries,
    the room's entry in [rooms] (and, in the first server source, in
    [mediaStates]) becomes what an explicit leave makes it, the same
    [user:left] event carrying [s] is emitted to the others of the room and
    reaches every remaining member, and the room is deleted when [s] was its
    last member.  Membership of a room whose id is an inherited name is
    outside this statement: the disconnect handler's loop does not reach
    it. *)
Theorem disconnect_performs_leave (v : Server) (tr : list (Z * Input))
    (s r : string) (p : Participant) :
  ordinary_trace tr = true →
  member (state_after v tr) r s = Some p →
  member (handle_disconnect v s (state_after v tr)).1 r s = None ∧
  media_of (handle_disconnect v s (state_after v tr)).1 r s = None ∧
  rooms (handle_disconnect v s (state_after v tr)).1 !! r
    = rooms (handle_leave s r (state_after v tr)).1 !! r ∧
  (v = WithScreenShare →
   mediaStates (handle_disconnect v s (state_after v tr)).1 !! r
     = mediaStates (handle_leave s r (state_after v tr)).1 !! r) ∧
  (∃ e, e ∈ (handle_disconnect v s (state_after v tr)).2 ∧
        (handle_leave s r (state_after v tr)).2 = [e] ∧
        target e = ToRoomExcept r s ∧ payload e = UserLeft s ∧
        ∀ x, is_Some (member (handle_disconnect v s (state_after v tr)).1 r x) →
             x ∈ recipients e) ∧
  ((∀ x, x ≠ s → member (state_after v tr) r x = None) →
   rooms (handle_disconnect v s (state_after v tr)).1 !! r = None ∧
   (v = WithScreenShare →
    mediaStates (handle_disconnect v s (state_after v tr)).1 !! r = None)).
Proof.
  set (σ := state_after v tr). intros _ Hmem.
  destruct (handle_disconnect_spec v s σ) as (Hr & Hm & Hg & Hc & He).
  pose proof (inv_state_after v tr) as Hinv. fold σ in Hinv.
  pose proof Hmem as (m & Hroom & Hs)%member_Some.
  split_and!.
  - unfold member. rewrite Hr. apply rooms_without_lookup.
  - unfold media_of. rewrite Hm. apply media_without_lookup.
    unfold member in Hmem. by rewrite Hmem.
  - by rewrite Hr, handle_leave_rooms, decide_True.
  - intros ->. by rewrite Hm, handle_leave_media, decide_True.
  - exists (socket_to_emit σ s r (UserLeft s)). split_and!; try done.
    + apply He. exists r. by rewrite Hmem.
    + by erewrite handle_leave_emits.
    + intros x Hx. apply recipients_socket_to_emit.
      unfold member in Hx. rewrite Hr in Hx.
      assert (x ≠ s) as Hne.
      { intros ->. rewrite rooms_without_lookup in Hx. by destruct Hx. }
      split; [|done]. apply rooms_without_other in Hx; [|done].
      rewrite Hroom in Hx. simpl in Hx. by eapply inv_subscribed.
  - intros Halone.
    assert (Hlast : rooms_without s (rooms σ !! r) = None).
    { rewrite Hroom. apply rooms_without_alone; [by rewrite Hs|].
      intros x Hne. specialize (Halone x Hne). unfold member in Halone.
      by rewrite Hroom in Halone. }
    split; [by rewrite Hr|]. intros ->. rewrite Hm.
    unfold rooms_without, leave_entry in Hlast. rewrite Hroom in Hlast |- *.
    simpl in *. rewrite Hs in Hlast |- *. by case_decide.
Qed.

Lemma disconnect_performs_leave_witness :
  member (state_after WithScreenShare eavesdrop) "r" "A"
    = Some (mkParticipant "A" "A" "A" None) ∧
  member (handle_disconnect WithScreenShare "A"
            (state_after WithScreenShare eavesdrop)).1 "r" "A" = None.
Proof.
  split; [by vm_compute|].
  apply (disconnect_performs_leave WithScreenShare eavesdrop "A" "r"
           (mkParticipant "A" "A" "A" None)); by vm_compute.
Defined.

(** X28.  On a trace that indexes the registries by ordinary keys only,
    leaving is idempotent.  A leave by a member emits [user:left] once and
    removes the member; a second leave of the same room by the same socket
    changes nothing and emits nothing; a later disconnect of that socket
    leaves the room's entries as they are and emits nothing to that room;
    and a leave by a socket that is not a member (the room or the member
    does not exist) changes nothing and emits nothing.  Once a socket has
    joined the room named [__proto__], the handler's membership test finds
    that socket in every room; such traces are outside this statement. *)
Theorem leave_idempotent (v : Server) (tr : list (Z * Input)) (σ : State) (s r : string) :
  σ = state_after v tr → ordinary_trace tr = true →
  ordinary r = true → ordinary s = true →
  (∀ p, member σ r s = Some p →
        (handle_leave s r σ).2 = [socket_to_emit σ s r (UserLeft s)] ∧
        media_of (handle_leave s r σ).1 r s = None) ∧
  member (handle_leave s r σ).1 r s = None ∧
  handle_leave s r (handle_leave s r σ).1 = ((handle_leave s r σ).1, []) ∧
  rooms (handle_disconnect v s (handle_leave s r σ).1).1 !! r
    = rooms (handle_leave s r σ).1 !! r ∧
  mediaStates (handle_disconnect v s (handle_leave s r σ).1).1 !! r
    = mediaStates (handle_leave s r σ).1 !! r ∧
  (∀ e, e ∈ (handle_disconnect v s (handle_leave s r σ).1).2 →
        target e ≠ ToRoomExcept r s) ∧
  (member σ r s = None → handle_leave s r σ = (σ, [])).
Proof.
  intros _ _ _ _.
  assert (Hgone : member (handle_leave s r σ).1 r s = None).
  { unfold member. rewrite handle_leave_rooms, decide_True by done.
    apply rooms_without_lookup. }
  destruct (handle_disconnect_spec v s (handle_leave s r σ).1) as (Hr & Hm & _ & _ & He).
  split_and!; try done.
  - intros p Hp. split; [by eapply handle_leave_emits|].
    unfold media_of. rewrite handle_leave_media, decide_True by done.
    apply media_without_lookup. unfold member in Hp. by rewrite Hp.
  - by apply handle_leave_not_member.
  - rewrite Hr. by apply rooms_without_id.
  - rewrite Hm. by apply media_without_id.
  - intros e (r' & Hmem & ->)%He. simpl. intros [= ->].
    rewrite Hgone in Hmem. by destruct Hmem.
  - apply handle_leave_not_member.
Qed.

Lemma leave_idempotent_witness :
  (handle_leave "A" "r" (state_after WithScreenShare (enters "A" "r"))).2
    = [socket_to_emit (state_after WithScreenShare (enters "A" "r")) "A" "r" (UserLeft "A")] ∧
  handle_leave "A" "r" init = (init, []).
Proof.
  split.
  - refine (proj1 (proj1 (leave_idempotent WithScreenShare (enters "A" "r")
                            (state_after WithScreenShare (enters "A" "r")) "A" "r"
                            eq_refl _ _ _)
                     (mkParticipant "A" "A" "A" None) _)); by vm_compute.
  - refine (proj2 (proj2 (proj2 (proj2 (proj2 (proj2
              (leave_idempotent WithScreenShare [] init "A" "r" eq_refl _ _ _)))))) _);
      by vm_compute.
Defined.

(** ** Media state updates *)

(** X29.  On a trace that indexes the registries by ordinary keys only,
    [media:state] yields a state in which the sender has an entry in the
    room's media map.  Starting from the prior entry, or from the defaults
    (audio on, video on, screen off) when there is none, a field present in
    the event is written and an absent field keeps its value; the
    screen-sharing flag (first server source; the second has none) keeps its
    value; no other entry of either registry changes; the values broadcast
    are the merged ones.  Once a socket has joined the room named
    [__proto__], its entry there is found as the prior entry in every room
    instead of the defaults; such traces are outside this statement. *)
Theorem media_state_partial_merge (v : Server) (tr : list (Z * Input)) (σ : State)
    (s r : string) (a vd : option bool) :
  σ = state_after v tr → ordinary_trace tr = true →
  ordinary r = true → ordinary s = true →
  audioEnabled (default_media v) = true ∧
  videoEnabled (default_media v) = true ∧
  screen_flag (default_media v) = false ∧
  rooms (handle_media_state v s r a vd σ).1 = rooms σ ∧
  (∀ r' s', (r', s') ≠ (r, s) →
     media_of (handle_media_state v s r a vd σ).1 r' s' = media_of σ r' s') ∧
  ∃ next,
    media_of (handle_media_state v s r a vd σ).1 r s = Some next ∧
    audioEnabled next
      = default (audioEnabled (default (default_media v) (media_of σ r s))) a ∧
    videoEnabled next
      = default (videoEnabled (default (default_media v) (media_of σ r s))) vd ∧
    (v = WithScreenShare →
     screen_flag next = screen_flag (default (default_media v) (media_of σ r s))) ∧
    (handle_media_state v s r a vd σ).2
      = [ socket_to_emit σ s r
            (MediaStateMsg s (audioEnabled next) (videoEnabled next)) ].
Proof.
  intros _ _ _ _. split_and!; try by destruct v.
  - intros r' s' Hne. unfold media_of at 1. rewrite handle_media_state_media.
    case_decide as Hr; [|done]. subst r'. simpl.
    rewrite lookup_insert_ne by congruence.
    unfold media_of. destruct (mediaStates σ !! r); simpl; [done|].
    by rewrite lookup_empty.
  - eexists. split_and!.
    + unfold media_of at 1. rewrite handle_media_state_media, decide_True by done.
      simpl. apply lookup_insert_eq.
    + done.
    + done.
    + by intros ->.
    + apply handle_media_state_emits.
Qed.

Lemma media_state_partial_merge_witness :
  media_of (handle_media_state WithScreenShare "A" "r" (Some false) None
              (handle_media_state WithScreenShare "A" "r" None (Some false)
                 (state_after WithScreenShare (enters "A" "r"))).1).1 "r" "B"
  = media_of (handle_media_state WithScreenShare "A" "r" None (Some false)
                (state_after WithScreenShare (enters "A" "r"))).1 "r" "B".
Proof.
  change (handle_media_state WithScreenShare "A" "r" None (Some false)
            (state_after WithScreenShare (enters "A" "r"))).1
    with (state_after WithScreenShare
            (enters "A" "r" ++ [ (1%Z, Receive "A" (MediaStateEv "r" None (Some false))) ])).
  refine (proj1 (proj2 (proj2 (proj2 (proj2
            (media_state_partial_merge WithScreenShare
               (enters "A" "r" ++ [ (1%Z, Receive "A" (MediaStateEv "r" None (Some false))) ])
               _ "A" "r" (Some false) None eq_refl _ _ _))))) "r" "B" _); by vm_compute.
Defined.

(** Sending only [audioEnabled = false] after [videoEnabled = false] leaves
    both flags off, and the screen flag as it was. *)
Example media_state_two_updates :
  media_of (handle_media_state WithScreenShare "A" "r" (Some false) None
              (handle_media_state WithScreenShare "A" "r" None (Some false)
                 (state_after WithScreenShare (enters "A" "r"))).1).1 "r" "A"
  = Some {| audioEnabled := false; videoEnabled := false; isScreenSharing := Some false |}.
Proof. by vm_compute. Qed.

(** C10.  [media:state] from a socket that is not a member of the named room
    (the room may not exist at all) is not rejected: the room's media map
    exists afterwards and holds an entry for the sender, and [media:state]
    is broadcast to the room.  When the room id names an entry of the
    registries, [rooms] is unchanged and the media map is created when
    absent, so that afterwards the room's media map has a key, the sender,
    that is not among the room's participants. *)
Theorem media_state_from_non_member (v : Server) (σ : State) (s r : string)
    (a vd : option bool) :
  member σ r s = None →
  (∃ ms, mediaStates (handle_media_state v s r a vd σ).1 !! r = Some ms ∧ s ∈ dom ms) ∧
  (∃ au vi, (handle_media_state v s r a vd σ).2
            = [ socket_to_emit σ s r (MediaStateMsg s au vi) ]) ∧
  ∀ tr, σ = state_after v tr → ordinary_trace tr = true →
        ordinary r = true → ordinary s = true →
    rooms (handle_media_state v s r a vd σ).1 = rooms σ ∧
    (∃ ms, mediaStates (handle_media_state v s r a vd σ).1 !! r = Some ms ∧
           s ∈ dom ms ∧
           (s ∉ dom (default ∅ (rooms (handle_media_state v s r a vd σ).1 !! r))) ∧
           (mediaStates σ !! r = None → dom ms = {[s]})).
Proof.
  intros Hmem. split_and!.
  - eexists. split.
    + rewrite handle_media_state_media, decide_True by done. reflexivity.
    + rewrite dom_insert_L. set_solver.
  - eexists _, _. apply handle_media_state_emits.
  - intros tr _ _ _ _. split; [done|]. eexists. split_and!.
    + rewrite handle_media_state_media, decide_True by done. reflexivity.
    + rewrite dom_insert_L. set_solver.
    + simpl. intros Hin. destruct (rooms σ !! r) as [m|] eqn:Hm; simpl in Hin.
      * apply elem_of_dom in Hin as [p Hp].
        assert (member σ r s = Some p) by (apply member_Some; eauto). congruence.
      * by rewrite dom_empty_L in Hin.
    + intros ->. simpl. rewrite dom_insert_L, dom_empty_L. set_solver.
Qed.

Lemma media_state_from_non_member_witness :
  member (state_after Basic two_in_room) "r" "X" = None ∧
  ∃ ms, mediaStates (handle_media_state Basic "X" "r" (Some false) None
                       (state_after Basic two_in_room)).1 !! "r" = Some ms ∧
        "X" ∈ dom ms ∧
        "X" ∉ dom (default ∅ (rooms (handle_media_state Basic "X" "r" (Some false) None
                                      (state_after Basic two_in_room)).1 !! "r")).
Proof.
  split; [by vm_compute|].
  destruct (media_state_from_non_member Basic (state_after Basic two_in_room)
              "X" "r" (Some false) None) as (_ & _ & Hrest).
  - by vm_compute.
  - destruct (Hrest two_in_room) as (_ & ms & Hms & Hin & Hout & _);
      [reflexivity|by vm_compute|by vm_compute|by vm_compute|].
    by exists ms.
Defined.

(** ** Chat *)

Section trimming.
Implicit Types (t : Text) (c : N).

Lemma trim_start_split t :
  ∃ pre, t = pre ++ trim_start t ∧ Forall (λ c, is_white_space c = true) pre.
Proof.
  induction t as [|c t (pre & Ht & Hpre)]; simpl.
  - by exists [].
  - destruct (is_white_space c) eqn:Hc.
    + exists (c :: pre). split; [simpl; congruence|by constructor].
    + by exists [].
Qed.

Lemma trim_start_head t c : head (trim_start t) = Some c → is_white_space c = false.
Proof.
  induction t as [|c' t IH]; simpl; [done|].
  destruct (is_white_space c') eqn:Hc; [done|]. simpl. congruence.
Qed.

Lemma trim_end_split t :
  ∃ suf, t = trim_end t ++ suf ∧ Forall (λ c, is_white_space c = true) suf.
Proof.
  destruct (trim_start_split (reverse t)) as (pre & Ht & Hpre).
  exists (reverse pre). split; [|by apply Forall_reverse].
  unfold trim_end. rewrite <- reverse_app, <- Ht. by rewrite reverse_involutive.
Qed.

Lemma trim_end_last t c : last (trim_end t) = Some c → is_white_space c = false.
Proof. unfold trim_end. rewrite last_reverse. apply trim_start_head. Qed.

Lemma trim_end_head t c :
  (∀ c, head t = Some c → is_white_space c = false) →
  head (trim_end t) = Some c → is_white_space c = false.
Proof.
  intros Ht Hc. destruct (trim_end_split t) as (suf & Heq & _). apply Ht.
  rewrite Heq. destruct (trim_end t); [done|]. done.
Qed.

(** [trim] removes the surrounding white space and nothing else. *)
Lemma trim_trimmed_of t : trimmed_of t (trim t).
Proof.
  destruct (trim_start_split t) as (pre & Ht & Hpre).
  destruct (trim_end_split (trim_start t)) as (suf & Hs & Hsuf).
  exists pre, suf. unfold trim. split_and!; try done.
  - by rewrite <- Hs.
  - intros c. apply trim_end_head. apply trim_start_head.
  - apply trim_end_last.
Qed.
End trimming.

(** X30.  On a trace that indexes the registries by ordinary keys only, when
    a member [s] of room [r] sends [chat:message], the state is unchanged and
    exactly one event is emitted; it is a [chat:message] whose text is the
    sent text with the surrounding white space trimmed and whose timestamp
    is the server's clock at that step (the client's event has no timestamp
    field); it is delivered once to each socket of the room, and every
    member of the room, the sender included, is one of them.  A socket that
    was disconnected while in a room whose id is an inherited name stays in
    [rooms] and receives nothing; such traces are outside this statement. *)
Theorem chat_fan_out (v : Server) (tr : list (Z * Input)) (now : Z)
    (s r u : string) (msg : Text) :
  ordinary_trace tr = true →
  is_Some (member (state_after v tr) r s) →
  ∃ e, step v (state_after v tr) (now, Receive s (Chat r u msg))
         = (state_after v tr, [e]) ∧
       payload e = ChatMessage u (trim msg) now ∧
       trimmed_of msg (trim msg) ∧
       NoDup (recipients e) ∧
       s ∈ recipients e ∧
       ∀ x, is_Some (member (state_after v tr) r x) → x ∈ recipients e.
Proof.
  set (σ := state_after v tr). intros _ Hs.
  pose proof (inv_state_after v tr) as Hinv. fold σ in Hinv.
  assert (Hrec : ∀ x, is_Some (member σ r x) → x ∈ sockets_in σ r ∧ x ∈ connected σ).
  { intros x [p (m & Hm & Hx)%member_Some].
    split; [eapply inv_subscribed|eapply inv_live]; eauto. }
  exists (io_to_emit σ r (ChatMessage u (trim msg) now)). split_and!.
  - unfold step; simpl. rewrite decide_True; [done|]. by apply Hrec.
  - done.
  - apply trim_trimmed_of.
  - simpl. apply NoDup_elements.
  - apply recipients_io_to_emit. by apply Hrec.
  - intros x Hx. apply recipients_io_to_emit. by apply Hrec.
Qed.

Lemma chat_fan_out_witness :
  ∃ e, step WithScreenShare (state_after WithScreenShare three_in_room)
         (7%Z, Receive "A" (Chat "r" "u1" [32; 104; 105; 160; 10]%N))
       = (state_after WithScreenShare three_in_room, [e]) ∧
       payload e = ChatMessage "u1" [104; 105]%N 7 ∧
       "A" ∈ recipients e.
Proof.
  destruct (chat_fan_out WithScreenShare three_in_room 7 "A" "r" "u1"
              [32; 104; 105; 160; 10]%N) as (e & Hstep & Hpay & _ & _ & HA & _).
  - by vm_compute.
  - vm_compute. by eexists.
  - exists e. split_and!; [exact Hstep| |exact HA].
    rewrite Hpay. by vm_compute.
Defined.

(** ** Signal relay *)

Section relay.
Implicit Types (σ : State) (s r t from : string) (sg : JsValue).

(** A signal with a falsy payload or destination is dropped. *)
Lemma handle_signal_dropped to from sg r σ :
  truthy sg = false ∨ truthy_string to = false →
  handle_signal to from sg r σ = (σ, []).
Proof. unfold handle_signal. by intros [-> | ->]; rewrite ?orb_true_r. Qed.

(** A missing or empty payload (undefined, null, the empty string) is falsy,
    and so is a missing or empty destination. *)
Lemma absent_or_empty_falsy :
  truthy JUndefined = false ∧ truthy JNull = false ∧
  truthy (JString EmptyString) = false ∧
  truthy_string None = false ∧ truthy_string (Some EmptyString) = false.
Proof. done. Qed.

(** An object payload is forwarded even when it has no field. *)
Lemma empty_object_truthy : truthy (JObject JNoField) = true.
Proof. done. Qed.

(** Any other signal is relayed to the transport room named by [to], with the
    profile of [from] as stored for room [r]. *)
Lemma handle_signal_forwards t from sg r σ :
  truthy sg = true → t ≠ EmptyString →
  handle_signal (Some t) from sg r σ =
  (σ, [ io_to_emit σ t
          (SignalMsg from sg (displayName <$> member σ r from)
             (userId <$> member σ r from) (member σ r from ≫= photoURL)) ]).
Proof.
  intros Hsg Ht. unfold handle_signal. rewrite Hsg. simpl.
  destruct (String.eqb t EmptyString) eqn:E; [|done].
  by apply String.eqb_eq in E.
Qed.

(** The signal reaches the addressee alone when only the addressee is in the
    transport room of its name. *)
Lemma signal_unicast t σ (m : Msg) :
  sockets_in σ t = {[t]} → recipients (io_to_emit σ t m) = [t].
Proof. simpl. intros ->. apply elements_singleton. Qed.

(** It reaches nobody when no socket is in the transport room of that name. *)
Lemma signal_to_nobody t σ (m : Msg) :
  sockets_in σ t = ∅ → recipients (io_to_emit σ t m) = [].
Proof. simpl. intros ->. apply elements_empty. Qed.

(** In a reachable state, what is relayed to [t] reaches live sockets only:
    the socket whose id is [t], and the members of the room named [t]. *)
Lemma signal_recipients (v : Server) tr t (m : Msg) x :
  x ∈ recipients (io_to_emit (state_after v tr) t m) →
  x ∈ connected (state_after v tr) ∧ (x = t ∨ is_Some (member (state_after v tr) t x)).
Proof.
  intros Hx%recipients_io_to_emit. by apply joined_only_state_after.
Qed.

(** So it reaches nobody but the addressee when no room is named [t]. *)
Lemma signal_unicast_unless_room (v : Server) tr t (m : Msg) x :
  rooms (state_after v tr) !! t = None →
  x ∈ recipients (io_to_emit (state_after v tr) t m) → x = t.
Proof.
  intros Hnone [_ [->|[p Hp]]]%signal_recipients; [done|].
  unfold member in Hp. by rewrite Hnone in Hp.
Qed.

(** And it is dropped when [t] names neither a live socket nor a room. *)
Lemma signal_to_unknown_dropped (v : Server) tr t (m : Msg) :
  t ∉ connected (state_after v tr) → rooms (state_after v tr) !! t = None →
  recipients (io_to_emit (state_after v tr) t m) = [].
Proof.
  intros Hdead Hnone. apply elem_of_nil_inv. intros x Hx.
  pose proof (signal_unicast_unless_room v tr t m x Hnone Hx) as ->.
  apply signal_recipients in Hx as [? _]. done.
Qed.

(** The profile attached to a member's signal is the stored one. *)
Lemma signal_carries_stored_profile t from sg r σ (p : Participant) :
  truthy sg = true → t ≠ EmptyString → member σ r from = Some p →
  payload <$> (handle_signal (Some t) from sg r σ).2 =
  [ SignalMsg from sg (Some (displayName p)) (Some (userId p)) (photoURL p) ].
Proof.
  intros Hsg Ht Hp. rewrite handle_signal_forwards by done. simpl. by rewrite Hp.
Qed.
End relay.

(** C7 (both server sources).  A, B and C are members of room "r" and C has
    also joined the room whose id is B's socket id.  A's signal addressed to
    B is relayed with A's stored profile, and it is delivered to C as well
    as to B. *)
Theorem signal_reaches_eavesdropper (v : Server) :
  is_Some (member (state_after v eavesdrop) "r" "A") ∧
  is_Some (member (state_after v eavesdrop) "r" "B") ∧
  is_Some (member (state_after v eavesdrop) "r" "C") ∧
  step v (state_after v eavesdrop) (offer_to "B")
    = (state_after v eavesdrop, [ io_to_emit (state_after v eavesdrop) "B" offer_relayed ]) ∧
  recipients (io_to_emit (state_after v eavesdrop) "B" offer_relayed) ≡ₚ ["B"; "C"].
Proof.
  destruct v; split_and!; try (vm_compute; by eexists); by vm_compute; constructor.
Qed.

(** C8 (both server sources).  A and B are members of room "r"; no live
    socket has the id "r".  A's signal addressed to "r" is not dropped: it is
    delivered to B, and to A itself. *)
Theorem signal_to_room_id_is_broadcast (v : Server) :
  bool_decide ("r" ∈ connected (state_after v two_in_room)) = false ∧
  step v (state_after v two_in_room) (offer_to "r")
    = (state_after v two_in_room,
       [ io_to_emit (state_after v two_in_room) "r" offer_relayed ]) ∧
  recipients (io_to_emit (state_after v two_in_room) "r" offer_relayed) ≡ₚ ["A"; "B"].
Proof.
  destruct v; split_and!; try (by vm_compute); by vm_compute; constructor.
Qed.

(** ** A session from start to end *)

(** A joins the empty room and is told nobody is there; B joins, is told of
    A, and A is told of B; A's connection is lost, B is told that A left, and
    B is the only member that remains. *)
Example walkthrough_events :
  (λ e, (recipients e, payload e)) <$> (run WithScreenShare walkthrough).2 =
  [ (["A"], RoomJoined "abc" []);
    (["A"], MediaStates {[ "A" := default_media WithScreenShare ]});
    ([], UserJoined (mkParticipant "A" "u1" "Ann" None));
    (["B"], RoomJoined "abc" [mkParticipant "A" "u1" "Ann" None]);
    (["B"], MediaStates {[ "A" := default_media WithScreenShare;
                           "B" := default_media WithScreenShare ]});
    (["A"], UserJoined (mkParticipant "B" "u2" "Bob" None));
    (["B"], UserLeft "A") ] ∧
  rooms (state_after WithScreenShare walkthrough) !! "abc"
  = Some {[ "B" := mkParticipant "B" "u2" "Bob" None ]}.
Proof. by vm_compute. Qed.

(** With nobody in the room named by B's socket id but B, A's signal to B
    reaches B alone. *)
Example signal_only_to_addressee (v : Server) :
  step v (state_after v three_in_room) (offer_to "B")
    = (state_after v three_in_room,
       [ {| target := ToRoom "B"; payload := offer_relayed; recipients := ["B"] |} ]).
Proof. by destruct v; vm_compute. Qed.

(** ** Further properties of the handlers *)

Section reachable.
Implicit Types (σ : State) (s r : string) (v : Server).

(** Induction over the states reached from the initial one. *)
Lemma state_after_ind v (P : State → Prop) :
  P init → (∀ σ i, P σ → P (step v σ i).1) → ∀ tr, P (state_after v tr).
Proof.
  intros Hinit Hstep tr. unfold state_after, run.
  induction tr as [|i tr IH] using rev_ind; [done|].
  rewrite run_from_snoc. by apply Hstep.
Qed.

Lemma rooms_without_lookup_Some s (o : option (gmap string Participant)) m' x q :
  rooms_without s o = Some m' → m' !! x = Some q →
  ∃ m, o = Some m ∧ m !! x = Some q.
Proof.
  unfold rooms_without, leave_entry. destruct o as [m|]; simpl; [|done].
  destruct (m !! s) eqn:Hs.
  - case_decide; [done|]. intros [= <-] [_ Hx]%lookup_delete_Some. eauto.
  - intros [= <-] Hx. eauto.
Qed.

Lemma rooms_without_other_eq s x (o : option (gmap string Participant)) :
  x ≠ s → rooms_without s o ≫= (.!! x) = o ≫= (.!! x).
Proof.
  intros Hne. unfold rooms_without, leave_entry. destruct o as [m|]; simpl; [|done].
  destruct (m !! s) eqn:Hs; simpl; [|done].
  case_decide as Hz; simpl.
  - apply map_size_empty_inv in Hz.
    by rewrite <- (lookup_delete_ne m s x), Hz, lookup_empty.
  - by rewrite lookup_delete_ne.
Qed.

Lemma stored_ids_step v σ i : stored_ids σ → stored_ids (step v σ i).1.
Proof.
  intros H. unfold step. destruct i as [now [s|s e|s]]; simpl; case_decide; try done.
  - destruct e; simpl; try done; try (by destruct v).
    + destruct (decide (10 ≤ currentCount σ room)).
      { by rewrite handle_join_full. }
      intros r m x q. rewrite handle_join_rooms by lia. case_decide; subst; [|by apply H].
      intros [= <-]. destruct (decide (x = s)) as [->|Hne].
      * rewrite lookup_insert_eq. by intros [= <-].
      * rewrite lookup_insert_ne by done.
        destruct (rooms σ !! room) eqn:E; simpl; [by eapply H|].
        by rewrite lookup_empty.
    + by rewrite handle_signal_state.
    + destruct v; [|done]. by rewrite handle_screen_signal_state.
    + intros r m x q. rewrite handle_leave_rooms. case_decide; subst; [|by apply H].
      intros Hm Hx. destruct (rooms_without_lookup_Some _ _ _ _ _ Hm Hx) as (m0 & ? & ?).
      by eapply H.
  - destruct (handle_disconnect_spec v s σ) as (Hr & _).
    intros r m x q. rewrite Hr. intros Hm Hx.
    destruct (rooms_without_lookup_Some _ _ _ _ _ Hm Hx) as (m0 & ? & ?). by eapply H.
Qed.

Lemma stored_ids_state_after v tr : stored_ids (state_after v tr).
Proof.
  apply state_after_ind; [|apply stored_ids_step].
  intros r m x q. unfold init; simpl. by rewrite lookup_empty.
Qed.

(** On a trace that indexes the registries by ordinary keys only, the
    registry of rooms has ordinary keys only. *)
Lemma rooms_keys_ordinary_step v σ i :
  ordinary_input i = true →
  (∀ r, is_Some (rooms σ !! r) → ordinary r = true) →
  ∀ r, is_Some (rooms (step v σ i).1 !! r) → ordinary r = true.
Proof.
  intros Hi H. unfold step. destruct i as [now [s|s e|s]]; simpl; case_decide; try done.
  - unfold ordinary_input in Hi; simpl in Hi. apply andb_prop in Hi as [_ He].
    destruct e; simpl in *; try done; try (by destruct v).
    + destruct (decide (10 ≤ currentCount σ room)).
      { by rewrite handle_join_full. }
      intros r. rewrite handle_join_rooms by lia. case_decide; subst; [done|apply H].
    + by rewrite handle_signal_state.
    + destruct v; [|done]. by rewrite handle_screen_signal_state.
    + intros r. rewrite handle_leave_rooms. case_decide; subst; [done|apply H].
  - destruct (handle_disconnect_spec v s σ) as (Hr & _).
    intros r. rewrite Hr. intros [m Hm]. apply H.
    unfold rooms_without in Hm. destruct (rooms σ !! r); [by eexists|done].
Qed.

Lemma rooms_keys_ordinary v tr r :
  ordinary_trace tr = true → is_Some (rooms (state_after v tr) !! r) → ordinary r = true.
Proof.
  revert r. unfold state_after, run, ordinary_trace.
  induction tr as [|i tr IH] using rev_ind; intros r Htr.
  - simpl. rewrite lookup_empty. by intros [? ?].
  - rewrite forallb_app in Htr. apply andb_prop in Htr as [Htr Hi].
    simpl in Hi. rewrite andb_true_r in Hi.
    rewrite run_from_snoc. apply rooms_keys_ordinary_step; [done|].
    intros r'. by apply IH.
Qed.

(** The socket ids listed by [others] are the keys of the map but [s]. *)
Lemma others_socket_ids s (m : gmap string Participant) :
  socketId <$> others s m = filter (λ x, x ≠ s) (map_to_list m).*1.
Proof.
  unfold others. induction (map_to_list m) as [|[k q] l IH]; [done|].
  rewrite fmap_cons, !filter_cons. cbn [fst].
  destruct (decide (k ≠ s)); [|exact IH].
  rewrite !fmap_cons. cbn [fst socketId]. f_equal. exact IH.
Qed.

Lemma others_NoDup s (m : gmap string Participant) : NoDup (socketId <$> others s m).
Proof. rewrite others_socket_ids. apply NoDup_filter, NoDup_fst_map_to_list. Qed.

Lemma member_insert_ne σ r s x (q : Participant) :
  x ≠ s → <[s := q]> (default ∅ (rooms σ !! r)) !! x = member σ r x.
Proof.
  intros Hne. rewrite lookup_insert_ne by done. unfold member.
  destruct (rooms σ !! r); simpl; [done|]. by rewrite lookup_empty.
Qed.
End reachable.

(** X1.  On a trace that indexes the registries by ordinary keys only, a
    join to a room holding fewer than 10 members, under an ordinary room id,
    stores the joiner under its socket id with the profile given and the
    default media state, whatever entry it had before (a member that joins
    again gets its profile overwritten and its media state reset); no other
    member of the room and no other room changes; the room grows by one
    unless the joiner is already a member. *)
Theorem join_adds_member (v : Server) (tr : list (Z * Input)) (σ : State)
    (s r u d : string) (p : option string) :
  σ = state_after v tr → ordinary_trace tr = true →
  ordinary r = true → ordinary s = true →
  currentCount σ r < 10 →
  member (handle_join v s r u d p σ).1 r s = Some (mkParticipant s u d p) ∧
  media_of (handle_join v s r u d p σ).1 r s = Some (default_media v) ∧
  (∀ x, x ≠ s →
     member (handle_join v s r u d p σ).1 r x = member σ r x ∧
     media_of (handle_join v s r u d p σ).1 r x = media_of σ r x) ∧
  (∀ r', r' ≠ r →
     rooms (handle_join v s r u d p σ).1 !! r' = rooms σ !! r' ∧
     mediaStates (handle_join v s r u d p σ).1 !! r' = mediaStates σ !! r') ∧
  currentCount (handle_join v s r u d p σ).1 r =
    (if member σ r s is Some _ then currentCount σ r else S (currentCount σ r)).
Proof.
  intros _ _ _ _ Hlt. split_and!.
  - unfold member. rewrite handle_join_rooms, decide_True by done. simpl.
    apply lookup_insert_eq.
  - unfold media_of. rewrite handle_join_media, decide_True by done. simpl.
    apply lookup_insert_eq.
  - intros x Hne. split.
    + unfold member at 1. rewrite handle_join_rooms, decide_True by done. simpl.
      by apply member_insert_ne.
    + unfold media_of. rewrite handle_join_media, decide_True by done. simpl.
      rewrite lookup_insert_ne by done.
      destruct (mediaStates σ !! r); simpl; [done|]. by rewrite lookup_empty.
  - intros r' Hne. by rewrite handle_join_rooms, handle_join_media, !decide_False.
  - unfold currentCount at 1. rewrite handle_join_rooms, decide_True by done.
    unfold member, currentCount. destruct (rooms σ !! r) as [m|]; simpl.
    + destruct (m !! s) eqn:Hs.
      * rewrite map_size_insert_Some; [done|by rewrite Hs].
      * by rewrite map_size_insert_None.
    + rewrite map_size_insert_None by apply lookup_empty. by rewrite map_size_empty.
Qed.

Lemma join_adds_member_witness :
  media_of (state_after WithScreenShare
              (enters "A" "r" ++ [ (1%Z, Receive "A" (MediaStateEv "r" (Some false) None)) ]))
    "r" "A"
  = Some {| audioEnabled := false; videoEnabled := true; isScreenSharing := Some false |} ∧
  media_of (handle_join WithScreenShare "A" "r" "u" "Ann" None
              (state_after WithScreenShare
                 (enters "A" "r"
                  ++ [ (1%Z, Receive "A" (MediaStateEv "r" (Some false) None)) ]))).1
    "r" "A"
  = Some (default_media WithScreenShare).
Proof.
  split; [by vm_compute|].
  refine (proj1 (proj2 (join_adds_member WithScreenShare
            (enters "A" "r" ++ [ (1%Z, Receive "A" (MediaStateEv "r" (Some false) None)) ])
            _ "A" "r" "u" "Ann" None eq_refl _ _ _ _))); [by vm_compute ..|].
  vm_compute. lia.
Defined.

(** X2.  After a trace that indexes the registries by ordinary keys only,
    the [existingUsers] list sent to a successful joiner of a room with an
    ordinary id holds exactly the stored records of the other members of the
    room, each once, and never the joiner's own. *)
Theorem join_lists_other_members (v : Server) (tr : list (Z * Input))
    (s r u d : string) (p : option string) :
  ordinary_trace tr = true → ordinary r = true → ordinary s = true →
  currentCount (state_after v tr) r < 10 →
  ∃ existing rest,
    (handle_join v s r u d p (state_after v tr)).2
      = socket_emit s (RoomJoined r existing) :: rest ∧
    (∀ q, q ∈ existing ↔ ∃ x, x ≠ s ∧ member (state_after v tr) r x = Some q) ∧
    NoDup (socketId <$> existing) ∧
    s ∉ (socketId <$> existing).
Proof.
  set (σ := state_after v tr). intros _ _ _ Hlt.
  pose proof (stored_ids_state_after v tr) as Hids. fold σ in Hids.
  eexists _, _. split; [by apply handle_join_emits|]. split_and!.
  - intros q. rewrite elem_of_others. split.
    + intros (x & info & Hx & Hne & ->). exists x. split; [done|].
      rewrite member_insert_ne in Hx by done. rewrite Hx. f_equal.
      apply member_Some in Hx as (m & Hm & Hq).
      pose proof (Hids _ _ _ _ Hm Hq) as <-. by destruct info.
    + intros (x & Hne & Hx). exists x, q. split_and!; [|done|].
      * by rewrite member_insert_ne.
      * apply member_Some in Hx as (m & Hm & Hq).
        pose proof (Hids _ _ _ _ Hm Hq) as <-. by destruct q.
  - apply others_NoDup.
  - rewrite others_socket_ids. intros [? _]%list_elem_of_filter. done.
Qed.

Lemma join_lists_other_members_witness :
  ∃ existing rest,
    (handle_join Basic "C" "r" "u3" "Cy" None (state_after Basic two_in_room)).2
      = socket_emit "C" (RoomJoined "r" existing) :: rest ∧
    NoDup (socketId <$> existing).
Proof.
  destruct (join_lists_other_members Basic two_in_room "C" "r" "u3" "Cy" None)
    as (existing & rest & Hout & _ & Hnd & _).
  - by vm_compute.
  - by vm_compute.
  - by vm_compute.
  - vm_compute. lia.
  - by exists existing, rest.
Defined.



(** X4.  After a trace that indexes the registries by ordinary keys only, a
    join to a room with an ordinary id is answered with [room:full] exactly
    when the room holds 10 members. *)
Theorem room_full_iff_ten (v : Server) (tr : list (Z * Input))
    (s r u d : string) (p : option string) :
  ordinary_trace tr = true → ordinary r = true → ordinary s = true →
  (handle_join v s r u d p (state_after v tr)).2 = [socket_emit s RoomFull]
  ↔ currentCount (state_after v tr) r = 10.
Proof.
  set (σ := state_after v tr). intros _ _ _.
  assert (Hcap : currentCount σ r ≤ 10).
  { unfold currentCount. destruct (rooms σ !! r) as [m|] eqn:Hm; [|lia].
    by eapply inv_capacity; [apply inv_state_after|]. }
  split.
  - intros Hout. destruct (decide (currentCount σ r < 10)) as [Hlt|]; [|lia].
    by rewrite handle_join_emits in Hout.
  - intros Hten. rewrite handle_join_full; [done|lia].
Qed.

Lemma room_full_iff_ten_witness :
  (handle_join Basic "s10" "r" "u10" "n10" None (state_after Basic full_house)).2
  = [socket_emit "s10" RoomFull].
Proof.
  apply (room_full_iff_ten Basic full_house "s10" "r" "u10" "n10" None);
    by vm_compute.
Defined.

(** ** Screen sharing *)

Section sharing.
Implicit Types (σ : State) (s r : string) (b : bool).

Lemma set_sharing_media_of s r b σ :
  media_of (set_sharing s r b σ) r s
  = (λ m, mkMediaState (audioEnabled m) (videoEnabled m) (Some b)) <$> media_of σ r s.
Proof.
  unfold media_of, set_sharing; simpl. rewrite lookup_alter_eq.
  destruct (mediaStates σ !! r) as [ms|]; simpl; [|done].
  by rewrite lookup_alter_eq.
Qed.

Lemma set_sharing_media_of_ne s r b σ r' s' :
  (r', s') ≠ (r, s) → media_of (set_sharing s r b σ) r' s' = media_of σ r' s'.
Proof.
  intros Hne. unfold media_of, set_sharing; simpl.
  destruct (decide (r' = r)) as [->|Hr]; [|by rewrite lookup_alter_ne].
  rewrite lookup_alter_eq. destruct (mediaStates σ !! r) as [ms|]; simpl; [|done].
  rewrite lookup_alter_ne; [done|congruence].
Qed.

Lemma set_sharing_absent s r b σ :
  media_of σ r s = None → mediaStates (set_sharing s r b σ) = mediaStates σ.
Proof.
  intros Hnone. apply map_eq. intros r'. unfold set_sharing; simpl.
  destruct (decide (r' = r)) as [->|Hr]; [|by rewrite lookup_alter_ne].
  rewrite lookup_alter_eq. unfold media_of in Hnone.
  destruct (mediaStates σ !! r) as [ms|]; simpl in *; [|done].
  f_equal. apply map_eq. intros x. destruct (decide (x = s)) as [->|Hx].
  - by rewrite lookup_alter_eq, Hnone.
  - by rewrite lookup_alter_ne.
Qed.
End sharing.

(** X5.  After a trace that indexes the registries by ordinary keys only,
    [screen:share] for a room with an ordinary id writes the sender's
    screen-sharing flag and nothing else: the audio and video flags of that
    entry, every other entry, the key sets of the media maps and the
    registry of rooms are unchanged.  It never creates an entry: from a
    socket with no media entry in the room the state is unchanged, and the
    event is broadcast to the others of the room all the same, with the
    sender's stored name and photo when it has any. *)
Theorem screen_share_updates_flag_only (tr : list (Z * Input)) (σ : State)
    (s r : string) (b : bool) :
  σ = state_after WithScreenShare tr → ordinary_trace tr = true →
  ordinary r = true → ordinary s = true →
  rooms (handle_screen_share s r b σ).1 = rooms σ ∧
  media_of (handle_screen_share s r b σ).1 r s
    = (λ m, mkMediaState (audioEnabled m) (videoEnabled m) (Some b)) <$> media_of σ r s ∧
  (∀ r' s', (r', s') ≠ (r, s) →
     media_of (handle_screen_share s r b σ).1 r' s' = media_of σ r' s') ∧
  dom <$> mediaStates (handle_screen_share s r b σ).1 = dom <$> mediaStates σ ∧
  (media_of σ r s = None →
   mediaStates (handle_screen_share s r b σ).1 = mediaStates σ) ∧
  (handle_screen_share s r b σ).2
    = [ socket_to_emit σ s r
          (ScreenShareMsg s b (displayName <$> member σ r s) (member σ r s ≫= photoURL)) ].
Proof.
  intros _ _ _ _. split_and!; try done.
  - apply set_sharing_media_of.
  - intros r' s'. apply set_sharing_media_of_ne.
  - apply set_sharing_dom.
  - apply set_sharing_absent.
Qed.

Lemma screen_share_updates_flag_only_witness :
  mediaStates (handle_screen_share "X" "r" true
                 (state_after WithScreenShare two_in_room)).1
  = mediaStates (state_after WithScreenShare two_in_room).
Proof.
  refine (proj1 (proj2 (proj2 (proj2 (proj2
            (screen_share_updates_flag_only two_in_room
               (state_after WithScreenShare two_in_room) "X" "r" true
               eq_refl _ _ _))))) _); by vm_compute.
Defined.

(** X6.  The screen-sharing flag set by [screen:share] survives later
    [media:state] updates of the same socket, which merge the audio and video
    flags only (first server source). *)
Theorem screen_flag_survives_media_state (σ : State) (s r : string) (b : bool)
    (a vd : option bool) (m : MediaState) :
  media_of σ r s = Some m →
  media_of (handle_media_state WithScreenShare s r a vd
              (handle_screen_share s r b σ).1).1 r s
  = Some {| audioEnabled := default (audioEnabled m) a;
            videoEnabled := default (videoEnabled m) vd;
            isScreenSharing := Some b |}.
Proof.
  intros Hm. unfold media_of at 1.
  rewrite handle_media_state_media, decide_True by done. simpl.
  rewrite lookup_insert_eq. unfold handle_screen_share; simpl.
  by rewrite set_sharing_media_of, Hm.
Qed.

Lemma screen_flag_survives_media_state_witness :
  media_of (handle_media_state WithScreenShare "A" "r" (Some false) None
              (handle_screen_share "A" "r" true
                 (state_after WithScreenShare two_in_room)).1).1 "r" "A"
  = Some {| audioEnabled := false; videoEnabled := true; isScreenSharing := Some true |}.
Proof.
  apply (screen_flag_survives_media_state (state_after WithScreenShare two_in_room)
           "A" "r" true (Some false) None (default_media WithScreenShare)).
  by vm_compute.
Defined.

(** ** Agreement of the registries under every event *)

Section agreement_all.
Implicit Types (σ : State) (s r : string) (v : Server).



End agreement_all.




Lemma no_stale_media_entry_witness :
  mediaStates (state_after WithScreenShare join_then_disconnect) !! "r" = None.
Proof.
  apply (no_stale_media_entry join_then_disconnect "r").
  - by repeat constructor.
  - by vm_compute.
Defined.

(** ** Rooms, members and transport rooms in reachable states *)

(** X10.  After a trace that indexes the registries by ordinary keys only,
    every room of the registry (an entry under an ordinary key) has at least
    one member, and every member is a live socket that sits in the transport
    room of the room's name: a lost connection leaves no member behind. *)
Theorem rooms_nonempty_and_live (v : Server) (tr : list (Z * Input))
    (r : string) (m : gmap string Participant) :
  ordinary_trace tr = true → ordinary r = true →
  rooms (state_after v tr) !! r = Some m →
  m ≠ ∅ ∧
  ∀ x, is_Some (m !! x) →
       x ∈ connected (state_after v tr) ∧ x ∈ sockets_in (state_after v tr) r.
Proof.
  intros _ _ Hm. pose proof (inv_state_after v tr) as Hinv. split.
  - by eapply inv_nonempty.
  - intros x Hx. split; [by eapply inv_live|by eapply inv_subscribed].
Qed.

Lemma rooms_nonempty_and_live_witness :
  ({[ "B" := mkParticipant "B" "u2" "Bob" None ]} : gmap string Participant) ≠ ∅.
Proof.
  apply (rooms_nonempty_and_live WithScreenShare walkthrough "abc"); by vm_compute.
Defined.



(** ** What leaving and disconnecting keep *)

Section keeping.
Implicit Types (σ : State) (s r : string) (v : Server).

End keeping.

(** X12.  After a trace that indexes the registries by ordinary keys only,
    the disconnect handler leaves the socket a member of no room of the
    registry, in no transport room and no longer live; every other socket's
    memberships are as before; and exactly one [user:left] is emitted for
    each room the socket was a member of, all of them entries under ordinary
    keys. *)
Theorem disconnect_cleans_up (v : Server) (tr : list (Z * Input)) (σ : State)
    (s : string) :
  σ = state_after v tr → ordinary_trace tr = true → ordinary s = true →
  (∀ r, ordinary r = true → member (handle_disconnect v s σ).1 r s = None) ∧
  (∀ g, s ∉ sockets_in (handle_disconnect v s σ).1 g) ∧
  (s ∉ connected (handle_disconnect v s σ).1) ∧
  (∀ r x, x ≠ s → member (handle_disconnect v s σ).1 r x = member σ r x) ∧
  ∃ rs, NoDup rs ∧ Forall (λ r, ordinary r = true) rs ∧
        (∀ r, ordinary r = true → (r ∈ rs ↔ is_Some (member σ r s))) ∧
        (handle_disconnect v s σ).2 = (λ r, socket_to_emit σ s r (UserLeft s)) <$> rs.
Proof.
  intros -> Htr _.
  set (σ := state_after v tr).
  destruct (handle_disconnect_spec v s σ) as (Hr & _ & Hg & Hc & _).
  split_and!.
  - intros r _. unfold member. rewrite Hr. apply rooms_without_lookup.
  - intros g. rewrite Hg. set_solver.
  - rewrite Hc. set_solver.
  - intros r x Hne. unfold member. rewrite Hr. by apply rooms_without_other_eq.
  - pose proof (disconnect_loop v s (map_to_list (rooms σ)).*1 (socket_close s σ, [])
                  (NoDup_fst_map_to_list _)) as (_ & _ & _ & _ & He).
    simpl in He.
    exists (filter (λ r, is_Some (member (socket_close s σ) r s)) (map_to_list (rooms σ)).*1).
    split_and!.
    + apply NoDup_filter, NoDup_fst_map_to_list.
    + apply Forall_forall. intros r [_ Hin]%list_elem_of_filter.
      apply list_elem_of_fmap in Hin as ([r' m] & -> & Hm%elem_of_map_to_list).
      apply (rooms_keys_ordinary v tr); [done|]. by exists m.
    + intros r _. rewrite list_elem_of_filter. split; [by intros [? _]|].
      intros Hmem. split; [done|]. destruct Hmem as [q (m & Hm & _)%member_Some].
      apply list_elem_of_fmap. exists (r, m). split; [done|].
      by apply elem_of_map_to_list.
    + unfold handle_disconnect. rewrite He. apply list_fmap_ext.
      intros _ r _. apply socket_to_emit_ext. rewrite sockets_in_close. set_solver.
Qed.

Lemma disconnect_cleans_up_witness :
  member (handle_disconnect Basic "C" (state_after Basic eavesdrop)).1 "r" "A"
  = member (state_after Basic eavesdrop) "r" "A".
Proof.
  refine (proj1 (proj2 (proj2 (proj2
            (disconnect_cleans_up Basic eavesdrop (state_after Basic eavesdrop) "C"
               eq_refl _ _)))) "r" "A" _); by vm_compute.
Defined.



(** ** Relays without checks *)

Section blank.
Implicit Types (t : Text).

Lemma trim_start_blank t :
  Forall (λ c, is_white_space c = true) t → trim_start t = [].
Proof. induction 1 as [|c t Hc _ IH]; [done|]. simpl. by rewrite Hc. Qed.

Lemma trim_blank t : Forall (λ c, is_white_space c = true) t → trim t = [].
Proof. intros H. unfold trim. by rewrite trim_start_blank. Qed.

Lemma trim_start_id t :
  (∀ c, head t = Some c → is_white_space c = false) → trim_start t = t.
Proof. destruct t as [|c t]; [done|]. intros H. simpl. by rewrite (H c). Qed.

Lemma trim_id t :
  (∀ c, head t = Some c → is_white_space c = false) →
  (∀ c, last t = Some c → is_white_space c = false) →
  trim t = t.
Proof.
  intros Hh Hl. unfold trim, trim_end. rewrite (trim_start_id t) by done.
  rewrite trim_start_id; [apply reverse_involutive|].
  intros c. rewrite head_reverse. apply Hl.
Qed.
End blank.

(** X14.  [chat:message] is relayed for any live sender: the sender need not
    be a member of the room it names and the user id is the one the client
    sent.  After a trace that indexes the registries by ordinary keys only,
    a message to a room with an ordinary id reaches every member of the
    room, and reaches only live sockets that are members of the room or have
    the room's name as socket id. *)
Theorem chat_needs_no_membership (v : Server) (tr : list (Z * Input)) (now : Z)
    (s r u : string) (msg : Text) :
  ordinary_trace tr = true → ordinary r = true →
  s ∈ connected (state_after v tr) →
  ∃ e, step v (state_after v tr) (now, Receive s (Chat r u msg))
         = (state_after v tr, [e]) ∧
       payload e = ChatMessage u (trim msg) now ∧
       (∀ x, is_Some (member (state_after v tr) r x) → x ∈ recipients e) ∧
       (∀ x, x ∈ recipients e →
             x ∈ connected (state_after v tr) ∧
             (x = r ∨ is_Some (member (state_after v tr) r x))).
Proof.
  set (σ := state_after v tr). intros _ _ Hs.
  exists (io_to_emit σ r (ChatMessage u (trim msg) now)). split_and!.
  - unfold step; simpl. by rewrite decide_True.
  - done.
  - intros x [q (m & Hm & Hx)%member_Some]. apply recipients_io_to_emit.
    eapply inv_subscribed; [apply inv_state_after|done|by rewrite Hx].
  - intros x Hx%recipients_io_to_emit. by apply joined_only_state_after.
Qed.

Lemma chat_needs_no_membership_witness :
  ∃ e, step Basic (state_after Basic (two_in_room ++ [(0%Z, Connect "X")]))
         (5%Z, Receive "X" (Chat "r" "anyone" [104; 105]%N))
       = (state_after Basic (two_in_room ++ [(0%Z, Connect "X")]), [e]) ∧
       payload e = ChatMessage "anyone" (trim [104; 105]%N) 5.
Proof.
  destruct (chat_needs_no_membership Basic (two_in_room ++ [(0%Z, Connect "X")]) 5
              "X" "r" "anyone" [104; 105]%N) as (e & Hstep & Hpay & _).
  - by vm_compute.
  - by vm_compute.
  - apply (bool_decide_unpack _). by vm_compute.
  - by exists e.
Defined.

(** X15.  The server does not drop an empty chat message: a message made of
    white space only is broadcast to the room with an empty text. *)
Theorem chat_blank_message (now : Z) (r u : string) (msg : Text) (σ : State) :
  Forall (λ c, is_white_space c = true) msg →
  handle_chat now r u msg σ = (σ, [ io_to_emit σ r (ChatMessage u [] now) ]).
Proof. intros H. unfold handle_chat. by rewrite trim_blank. Qed.

Lemma chat_blank_message_witness :
  handle_chat 1 "r" "u1" [32; 9; 10]%N init
  = (init, [ io_to_emit init "r" (ChatMessage "u1" [] 1) ]).
Proof. apply chat_blank_message. by repeat constructor. Defined.

(** X16.  [signal] is relayed whoever emits it and whoever it names as
    sender: when the named sender is not a member of the named room (or the
    room does not exist), the signal is still forwarded, with the three
    profile fields undefined. *)
Theorem signal_unknown_sender (v : Server) (now : Z) (s t from r : string)
    (sg : JsValue) (σ : State) :
  truthy sg = true → t ≠ EmptyString → member σ r from = None →
  handle v now s (Signal (Some t) from sg r) σ
  = (σ, [ io_to_emit σ t (SignalMsg from sg None None None) ]).
Proof.
  intros Hsg Ht Hnone. simpl. rewrite handle_signal_forwards by done.
  by rewrite Hnone.
Qed.

Lemma signal_unknown_sender_witness :
  handle Basic 0 "A" (Signal (Some "B") "nobody" (JString "offer") "nowhere")
    (state_after Basic two_in_room)
  = (state_after Basic two_in_room,
     [ io_to_emit (state_after Basic two_in_room) "B"
         (SignalMsg "nobody" (JString "offer") None None None) ]).
Proof. apply signal_unknown_sender; by vm_compute. Defined.

(** ** The list of allowed origins *)

Section configuration.
Implicit Types (t w : Text) (l : list Text) (sep c : N).

Lemma split_on_not_nil sep t : split_on sep t ≠ [].
Proof.
  destruct t as [|c t]; simpl; [done|].
  destruct (c =? sep)%N; [done|]. by destruct (split_on sep t).
Qed.

Lemma split_on_Forall (P : N → Prop) sep t :
  Forall P t → Forall (Forall P) (split_on sep t).
Proof.
  induction 1 as [|c t Hc Ht IH]; simpl; [by repeat constructor|].
  destruct (c =? sep)%N; [by constructor|].
  destruct (split_on sep t) as [|w ws]; [by repeat constructor|].
  apply Forall_cons in IH as [Hw Hws]. constructor; [by constructor|done].
Qed.

Lemma split_on_sep_free sep t w : w ∈ split_on sep t → sep ∉ w.
Proof.
  revert w. induction t as [|c t IH]; simpl; intros w.
  - intros ->%list_elem_of_singleton. by intros ?%elem_of_nil.
  - destruct (c =? sep)%N eqn:Hc.
    + intros [->|Hw]%elem_of_cons; [by intros ?%elem_of_nil|by apply IH].
    + apply N.eqb_neq in Hc. destruct (split_on sep t) as [|w0 ws].
      * intros ->%list_elem_of_singleton. intros [->|?%elem_of_nil]%elem_of_cons; done.
      * intros [->|Hw]%elem_of_cons.
        -- intros [->|Hin]%elem_of_cons; [done|]. by apply (IH w0); [left|].
        -- apply IH. by right.
Qed.

Lemma split_on_sep_free_app sep w t :
  sep ∉ w → split_on sep (w ++ sep :: t) = w :: split_on sep t.
Proof.
  induction w as [|c w IH]; simpl; intros Hw.
  - by rewrite N.eqb_refl.
  - assert ((c =? sep)%N = false) as ->.
    { apply N.eqb_neq. intros ->. apply Hw. by left. }
    rewrite IH; [done|]. intros ?. apply Hw. by right.
Qed.

Lemma split_on_sep_free_one sep w : sep ∉ w → split_on sep w = [w].
Proof.
  induction w as [|c w IH]; simpl; intros Hw; [done|].
  assert ((c =? sep)%N = false) as ->.
  { apply N.eqb_neq. intros ->. apply Hw. by left. }
  rewrite IH; [done|]. intros ?. apply Hw. by right.
Qed.

(** Splitting what was joined gives the pieces back. *)
Lemma split_on_join_with sep l :
  l ≠ [] → Forall (λ w, sep ∉ w) l → split_on sep (join_with sep l) = l.
Proof.
  intros Hne Hl. induction Hl as [|w l Hw Hl IH]; [done|].
  destruct l as [|w' l]; simpl.
  - by apply split_on_sep_free_one.
  - rewrite split_on_sep_free_app by done. f_equal. by apply IH.
Qed.

Lemma origins_Some t :
  origins (Some t) = filter (λ w : Text, w ≠ []) (trim <$> split_on 44 t).
Proof. done. Qed.

Lemma trim_sep_free sep t : sep ∉ t → sep ∉ trim t.
Proof.
  intros Ht Hin. destruct (trim_trimmed_of t) as (pre & suf & Heq & _).
  apply Ht. rewrite Heq. set_solver.
Qed.
End configuration.

(** X17.  Every allowed origin read from the configuration is a non-empty
    text without surrounding white space and without a comma. *)
Theorem origins_well_formed (env : option Text) (o : Text) :
  o ∈ origins env →
  o ≠ [] ∧
  (∀ c, head o = Some c → is_white_space c = false) ∧
  (∀ c, last o = Some c → is_white_space c = false) ∧
  (44%N ∉ o).
Proof.
  unfold origins, non_empty. intros [Hne Hin]%list_elem_of_filter.
  apply list_elem_of_fmap in Hin as (w & -> & Hw).
  destruct (trim_trimmed_of w) as (pre & suf & _ & _ & _ & Hh & Hl).
  split_and!; try done.
  by apply trim_sep_free, (split_on_sep_free _ _ _ Hw).
Qed.

Lemma origins_well_formed_witness :
  ([97; 98]%N : Text) ≠ [] ∧ (44%N ∉ ([97; 98]%N : Text)).
Proof.
  destruct (origins_well_formed (Some [32; 97; 98; 44; 44; 32; 99; 9]%N) [97; 98]%N)
    as (Hne & _ & _ & Hc).
  - apply (bool_decide_unpack _). by vm_compute.
  - by split.
Defined.

(** X18.  Reading the configuration inverts joining with commas: for origins
    that are non-empty, already trimmed and free of commas, the list read
    from their comma-separated concatenation is that list, in order. *)
Theorem origins_round_trip (l : list Text) :
  Forall (λ o, o ≠ [] ∧ trim o = o ∧ 44%N ∉ o) l →
  origins (Some (join_with 44 l)) = l.
Proof.
  intros Hl.
  assert (trim <$> l = l) as Htrim.
  { induction Hl as [|x k (_ & Hx & _) _ IH]; [done|]. by rewrite fmap_cons, Hx, IH. }
  assert (filter (λ t : Text, t ≠ []) l = l) as Hfilter.
  { clear Htrim. induction Hl as [|x k (Hx & _) _ IH]; [done|].
    rewrite filter_cons, decide_True by done. by rewrite IH. }
  assert (Forall (λ w : Text, 44%N ∉ w) l) as Hfree.
  { eapply Forall_impl; [done|]. by intros ? (_ & _ & ?). }
  rewrite origins_Some. destruct l as [|o l]; [done|].
  rewrite split_on_join_with by done. by rewrite Htrim, Hfilter.
Qed.

Lemma origins_round_trip_witness :
  origins (Some (join_with 44 [[97; 98]; [99]]%N)) = [[97; 98]; [99]]%N.
Proof.
  apply origins_round_trip.
  repeat constructor; try done; apply (bool_decide_unpack _); by vm_compute.
Defined.

(** X19.  A configuration that is unset, empty, or made of commas and white
    space only allows no origin. *)
Theorem origins_blank (t : Text) :
  Forall (λ c, is_white_space c = true ∨ c = 44%N) t →
  origins None = [] ∧ origins (Some t) = [].
Proof.
  intros Ht. split; [done|]. rewrite origins_Some.
  assert (Forall (Forall (λ c, is_white_space c = true)) (split_on 44 t)) as Hsegs.
  { apply Forall_forall. intros w Hw.
    pose proof (split_on_sep_free _ _ _ Hw) as Hfree.
    pose proof (split_on_Forall _ 44%N _ Ht) as Hall.
    rewrite Forall_forall in Hall. specialize (Hall w Hw).
    apply Forall_forall. intros c Hc. rewrite Forall_forall in Hall.
    destruct (Hall c Hc) as [?| ->]; done. }
  induction Hsegs as [|w ws Hw _ IH]; [done|].
  rewrite fmap_cons, filter_cons, (trim_blank w Hw).
  rewrite decide_False by (intros H; by apply H). exact IH.
Qed.

Lemma origins_blank_witness : origins (Some [32; 44; 44; 9]%N) = [].
Proof.
  apply origins_blank. repeat constructor; (by left) || (by right).
Defined.


(** ** The shape of media entries *)

Section shape.
Implicit Types (σ : State) (s r : string) (v : Server).

Lemma media_without_lookup_Some drop s (o : option (gmap string Participant))
    (mo : option (gmap string MediaState)) ms' x m :
  media_without drop s o mo = Some ms' → ms' !! x = Some m →
  ∃ ms, mo = Some ms ∧ ms !! x = Some m.
Proof.
  unfold media_without. intros Hm Hx.
  assert (∀ k, delete s <$> mo = Some k → k !! x = Some m →
               ∃ ms, mo = Some ms ∧ ms !! x = Some m) as Hdel.
  { intros k Hk Hkx. destruct mo as [ms|]; [|done]. injection Hk as <-.
    apply lookup_delete_Some in Hkx as [_ ?]. eauto. }
  destruct o as [mm|]; [|by eauto].
  destruct (mm !! s); [|by eauto].
  case_decide; [|by eauto]. destruct drop; [done|by eauto].
Qed.

Lemma media_shape_insert v σ r s (n : MediaState) (M : gmap string (gmap string MediaState)) :
  media_shape v σ →
  isScreenSharing n = match v with
                      | WithScreenShare => Some (screen_flag n)
                      | Basic => None
                      end →
  (∀ r', M !! r' = if decide (r' = r)
                   then Some (<[s := n]> (default ∅ (mediaStates σ !! r)))
                   else mediaStates σ !! r') →
  ∀ r' ms x m, M !! r' = Some ms → ms !! x = Some m →
    isScreenSharing m = match v with
                        | WithScreenShare => Some (screen_flag m)
                        | Basic => None
                        end.
Proof.
  intros H Hn HM r' ms x m. rewrite HM. case_decide; subst; [|by apply H].
  intros [= <-]. destruct (decide (x = s)) as [->|Hne].
  - rewrite lookup_insert_eq. by intros [= <-].
  - rewrite lookup_insert_ne by done.
    destruct (mediaStates σ !! r) eqn:E; simpl; [by eapply H|].
    by rewrite lookup_empty.
Qed.

Lemma media_shape_set_sharing s r b σ :
  media_shape WithScreenShare σ → media_shape WithScreenShare (set_sharing s r b σ).
Proof.
  intros H r' ms x m. unfold set_sharing; simpl.
  destruct (decide (r' = r)) as [->|Hr]; [|rewrite lookup_alter_ne by done; by apply H].
  rewrite lookup_alter_eq. destruct (mediaStates σ !! r) as [ms0|] eqn:E; simpl; [|done].
  intros [= <-]. destruct (decide (x = s)) as [->|Hx].
  - rewrite lookup_alter_eq. destruct (ms0 !! s); simpl; [|done]. by intros [= <-].
  - rewrite lookup_alter_ne by done. by eapply H.
Qed.

Lemma media_shape_step v σ i : media_shape v σ → media_shape v (step v σ i).1.
Proof.
  intros H. unfold step. destruct i as [now [s|s e|s]]; simpl; case_decide; try done.
  - destruct e; simpl; try done.
    + destruct (decide (10 ≤ currentCount σ room)).
      { by rewrite handle_join_full. }
      red. eapply (media_shape_insert v σ room s (default_media v)); [done|by destruct v|].
      intros r'. apply handle_join_media. lia.
    + by rewrite handle_signal_state.
    + red. eapply (media_shape_insert v σ room s); [done| |].
      2: { intros r'. apply handle_media_state_media. }
      by destruct v.
    + destruct v; [|done]. by apply media_shape_set_sharing.
    + destruct v; [|done]. by apply media_shape_set_sharing.
    + destruct v; [|done]. by apply media_shape_set_sharing.
    + destruct v; [|done]. by rewrite handle_screen_signal_state.
    + intros r ms x m. rewrite handle_leave_media. case_decide; subst; [|by apply H].
      intros Hm Hx. destruct (media_without_lookup_Some _ _ _ _ _ _ _ Hm Hx) as (? & ? & ?).
      by eapply H.
  - destruct (handle_disconnect_spec v s σ) as (_ & Hm & _).
    intros r ms x m. rewrite Hm. intros Hms Hx.
    destruct (media_without_lookup_Some _ _ _ _ _ _ _ Hms Hx) as (? & ? & ?).
    by eapply H.
Qed.
End shape.

(** X20.  In a reachable state of the first server source every media entry has
    its screen-sharing flag defined, so the fallback [?? false] of the
    [media:state] handler never applies; in the second source no entry has
    such a flag. *)
Theorem media_entries_shape (v : Server) (tr : list (Z * Input)) (r x : string)
    (m : MediaState) :
  media_of (state_after v tr) r x = Some m →
  isScreenSharing m = match v with
                      | WithScreenShare => Some (screen_flag m)
                      | Basic => None
                      end.
Proof.
  intros Hm. unfold media_of in Hm.
  destruct (mediaStates (state_after v tr) !! r) as [ms|] eqn:E; [|done].
  assert (media_shape v (state_after v tr)) as H; [|by eapply H].
  apply state_after_ind; [|apply media_shape_step].
  intros ? ? ? ?. unfold init; simpl. by rewrite lookup_empty.
Qed.

Lemma media_entries_shape_witness :
  isScreenSharing (mkMediaState false true (Some false)) = Some false.
Proof.
  apply (media_entries_shape WithScreenShare
           (two_in_room ++ [ (3%Z, Receive "A" (MediaStateEv "r" (Some false) None)) ])
           "r" "A" (mkMediaState false true (Some false))).
  by vm_compute.
Defined.

(** ** The client's view against the server's state *)

Section client.
Implicit Types (σ : State) (s r x k : string) (v : Server)
  (l : list Participant) (prev : gmap string Client.MediaState).

Lemma joined_media_fold l (acc : gmap string Client.MediaState) k :
  foldl (λ acc u, <[socketId u := Client.fresh]> acc) acc l !! k
  = if decide (k ∈ socketId <$> l) then Some Client.fresh else acc !! k.
Proof.
  revert acc. induction l as [|u l IH]; intros acc.
  - destruct (decide (k ∈ socketId <$> [])) as [H|]; [by apply elem_of_nil in H|done].
  - rewrite fmap_cons. cbn [foldl]. rewrite IH.
    destruct (decide (k ∈ socketId <$> l)) as [Hin|Hout].
    + rewrite decide_True; [done|]. by right.
    + destruct (decide (k = socketId u)) as [->|Hne].
      * rewrite lookup_insert_eq, decide_True; [done|]. by left.
      * rewrite lookup_insert_ne by done. rewrite decide_False; [done|].
        by intros [?|?]%elem_of_cons.
Qed.

Lemma joined_ids_fold l (acc : gset string) :
  foldl (λ acc u, {[socketId u]} ∪ acc) acc l = list_to_set (socketId <$> l) ∪ acc.
Proof.
  revert acc. induction l as [|u l IH]; intros acc; simpl; [set_solver|].
  rewrite IH. set_solver.
Qed.

Lemma joined_media_other l own muted video k :
  k ∈ socketId <$> l → k ≠ own →
  Client.joined_media l own muted video !! k = Some Client.fresh.
Proof.
  intros Hin Hne. unfold Client.joined_media.
  destruct (truthy_string (Some own)).
  - rewrite lookup_insert_ne by done. by rewrite joined_media_fold, decide_True.
  - by rewrite joined_media_fold, decide_True.
Qed.

Lemma truthy_string_Some s : s ≠ EmptyString → truthy_string (Some s) = true.
Proof.
  intros Hs. simpl. destruct (String.eqb s EmptyString) eqn:E; [|done].
  by apply String.eqb_eq in E.
Qed.

Lemma filter_all {A} (P : A → Prop) `{!∀ a, Decision (P a)} (l : list A) :
  Forall P l → filter P l = l.
Proof.
  induction 1 as [|a l Ha _ IH]; [done|]. by rewrite filter_cons, decide_True, IH.
Qed.

(** The list of the others is as long as the map without [s] is large. *)
Lemma others_length s (m : gmap string Participant) :
  length (others s m) = size (delete s m).
Proof.
  unfold others. rewrite length_fmap.
  destruct (m !! s) as [q|] eqn:Hs.
  - rewrite <- (map_to_list_delete m s q Hs), filter_cons, decide_False by (by intros []).
    rewrite filter_all; [by rewrite length_map_to_list|].
    apply Forall_forall. intros [k q'] [Hne _]%elem_of_map_to_list%lookup_delete_Some.
    simpl. congruence.
  - rewrite delete_id by done. rewrite filter_all; [by rewrite length_map_to_list|].
    apply Forall_forall. intros [k q'] Hk%elem_of_map_to_list. simpl. congruence.
Qed.
End client.

(** X21.  What a joiner's client shows for a member that was already in the
    room does not depend on the [media:states] snapshot the server sends:
    the [room:joined] updater has stored the default entry (audio on, video
    on, not sharing) first, and the [media:states] updater lets existing
    entries win.  So, after a trace that indexes the registries by ordinary
    keys only and for a room with an ordinary id, every existing member is
    shown with the defaults, whatever its media state on the server, which
    the snapshot carries. *)
Theorem joiner_sees_defaults (v : Server) (tr : list (Z * Input)) (σ : State)
    (s r u d : string) (p : option string) (muted video : bool)
    (prev : gmap string Client.MediaState) (x : string) :
  σ = state_after v tr → ordinary_trace tr = true →
  ordinary r = true → ordinary s = true →
  currentCount σ r < 10 → x ≠ s → is_Some (member σ r x) → prev !! x = None →
  ∃ existing snapshot rest,
    (handle_join v s r u d p σ).2
      = socket_emit s (RoomJoined r existing)
          :: socket_emit s (MediaStates snapshot) :: rest ∧
    snapshot !! x = media_of σ r x ∧
    Client.on_media_states (to_client <$> snapshot)
      (Client.on_room_joined existing s muted video prev) !! x
    = Some Client.fresh.
Proof.
  intros _ _ _ _ Hlt Hne [q Hq] Hprev. eexists _, _, _.
  split; [by apply handle_join_emits|]. split.
  - rewrite lookup_insert_ne by done. unfold media_of.
    destruct (mediaStates σ !! r); simpl; [done|]. by rewrite lookup_empty.
  - unfold Client.on_media_states, Client.on_room_joined.
    assert (Client.joined_media
              (others s (<[s := mkParticipant s u d p]> (default ∅ (rooms σ !! r))))
              s muted video !! x = Some Client.fresh) as Hx.
    { apply joined_media_other; [|done]. rewrite others_socket_ids.
      apply list_elem_of_filter. split; [done|].
      apply list_elem_of_fmap. exists (x, q). split; [done|].
      apply elem_of_map_to_list. by rewrite member_insert_ne. }
    rewrite lookup_union_l'; rewrite lookup_union_r by done; by rewrite Hx.
Qed.

Lemma joiner_sees_defaults_witness :
  media_of (state_after WithScreenShare
              (two_in_room ++ [ (3%Z, Receive "B" (MediaStateEv "r" (Some false) None)) ]))
    "r" "B"
  = Some {| audioEnabled := false; videoEnabled := true; isScreenSharing := Some false |} ∧
  ∃ existing snapshot rest,
    (handle_join WithScreenShare "C" "r" "u3" "Cy" None
       (state_after WithScreenShare
          (two_in_room ++ [ (3%Z, Receive "B" (MediaStateEv "r" (Some false) None)) ]))).2
      = socket_emit "C" (RoomJoined "r" existing)
          :: socket_emit "C" (MediaStates snapshot) :: rest ∧
    Client.on_media_states (to_client <$> snapshot)
      (Client.on_room_joined existing "C" false true ∅) !! "B"
    = Some Client.fresh.
Proof.
  split; [by vm_compute|].
  destruct (joiner_sees_defaults WithScreenShare
              (two_in_room ++ [ (3%Z, Receive "B" (MediaStateEv "r" (Some false) None)) ])
              (state_after WithScreenShare
                 (two_in_room ++ [ (3%Z, Receive "B" (MediaStateEv "r" (Some false) None)) ]))
              "C" "r" "u3" "Cy" None false true ∅ "B")
    as (existing & snapshot & rest & Hout & _ & Hview).
  - reflexivity.
  - by vm_compute.
  - by vm_compute.
  - by vm_compute.
  - vm_compute. lia.
  - done.
  - vm_compute. by eexists.
  - done.
  - by exists existing, snapshot, rest.
Defined.

(** X22.  The [media:state] event the server broadcasts always carries both
    flags, and the client's updater applied to it stores exactly the audio
    and video flags the server has stored for that socket; it keeps the
    client's screen-sharing flag for that socket (off when unknown) and
    leaves every other socket's entry alone. *)
Theorem client_media_state_in_sync (v : Server) (σ : State) (s r : string)
    (a vd : option bool) (prev : gmap string Client.MediaState) :
  ∃ au vi next entry,
    (handle_media_state v s r a vd σ).2
      = [ socket_to_emit σ s r (MediaStateMsg s au vi) ] ∧
    media_of (handle_media_state v s r a vd σ).1 r s = Some next ∧
    Client.on_media_state s (Some au) (Some vi) prev !! s = Some entry ∧
    Client.audioEnabled entry = Some (audioEnabled next) ∧
    Client.videoEnabled entry = Some (videoEnabled next) ∧
    Client.isScreenSharing entry
      = Some (default false (prev !! s ≫= Client.isScreenSharing)) ∧
    ∀ k, k ≠ s → Client.on_media_state s (Some au) (Some vi) prev !! k = prev !! k.
Proof.
  eexists _, _, _, _. split_and!.
  - apply handle_media_state_emits.
  - unfold media_of. rewrite handle_media_state_media, decide_True by done. simpl.
    apply lookup_insert_eq.
  - unfold Client.on_media_state. apply lookup_insert_eq.
  - done.
  - done.
  - done.
  - intros k Hk. unfold Client.on_media_state. by rewrite lookup_insert_ne.
Qed.

Lemma client_media_state_in_sync_witness :
  ∃ au vi,
    (handle_media_state Basic "A" "r" (Some false) None (state_after Basic two_in_room)).2
      = [ socket_to_emit (state_after Basic two_in_room) "A" "r" (MediaStateMsg "A" au vi) ] ∧
    Client.on_media_state "A" (Some au) (Some vi) ∅ !! "B" = None.
Proof.
  destruct (client_media_state_in_sync Basic (state_after Basic two_in_room) "A" "r"
              (Some false) None ∅) as (au & vi & _ & _ & Hout & _ & _ & _ & _ & _ & Hother).
  exists au, vi. split; [exact Hout|]. by rewrite Hother.
Defined.

(** X23.  The participant count a joiner's client computes from [room:joined]
    (the listed users plus itself) equals the number of members the server
    holds for the room after the join. *)
Theorem participant_count_matches (v : Server) (σ : State) (s r u d : string)
    (p : option string) :
  currentCount σ r < 10 → s ≠ EmptyString →
  ∃ existing rest,
    (handle_join v s r u d p σ).2 = socket_emit s (RoomJoined r existing) :: rest ∧
    size (Client.joined_ids existing s) = currentCount (handle_join v s r u d p σ).1 r.
Proof.
  intros Hlt Hs. eexists _, _. split; [by apply handle_join_emits|].
  set (M := <[s := mkParticipant s u d p]> (default ∅ (rooms σ !! r))).
  unfold Client.joined_ids. rewrite truthy_string_Some by done.
  rewrite joined_ids_fold, (right_id_L ∅ (∪)).
  rewrite size_union.
  - rewrite size_singleton, size_list_to_set by apply others_NoDup.
    rewrite length_fmap, others_length.
    unfold currentCount. rewrite handle_join_rooms, decide_True by done.
    fold M. unfold M. rewrite delete_insert_eq.
    rewrite <- (insert_delete_eq (default ∅ (rooms σ !! r)) s (mkParticipant s u d p)).
    by rewrite map_size_insert_None by apply lookup_delete_eq.
  - apply disjoint_singleton_l. rewrite elem_of_list_to_set, others_socket_ids.
    intros [? _]%list_elem_of_filter. done.
Qed.

Lemma participant_count_matches_witness :
  ∃ existing rest,
    (handle_join Basic "C" "r" "u3" "Cy" None (state_after Basic two_in_room)).2
      = socket_emit "C" (RoomJoined "r" existing) :: rest ∧
    size (Client.joined_ids existing "C") = 3.
Proof.
  destruct (participant_count_matches Basic (state_after Basic two_in_room)
              "C" "r" "u3" "Cy" None) as (existing & rest & Hout & Hsize).
  - vm_compute. lia.
  - done.
  - exists existing, rest. split; [exact Hout|]. rewrite Hsize. by vm_compute.
Defined.

(** X24.  The client's limit of 9 peer connections never cuts the list the
    server sends: a join succeeds only into a room of fewer than 10, so
    [existingUsers] has at most 9 entries and the joiner calls all of them. *)
Theorem peer_limit_never_cuts (v : Server) (σ : State) (s r u d : string)
    (p : option string) :
  currentCount σ r < 10 →
  ∃ existing rest,
    (handle_join v s r u d p σ).2 = socket_emit s (RoomJoined r existing) :: rest ∧
    length existing ≤ Client.MAX_REMOTE_PEERS ∧
    Client.peers_to_call existing = existing.
Proof.
  intros Hlt. eexists _, _. split; [by apply handle_join_emits|].
  assert (length (others s (<[s := mkParticipant s u d p]> (default ∅ (rooms σ !! r))))
          ≤ Client.MAX_REMOTE_PEERS) as Hlen.
  { rewrite others_length, delete_insert_eq.
    pose proof (size_delete_le s (default ∅ (rooms σ !! r))) as Hle.
    unfold currentCount in Hlt. unfold Client.MAX_REMOTE_PEERS.
    destruct (rooms σ !! r); simpl in *; [lia|].
    rewrite map_size_empty in Hle. lia. }
  split; [done|]. by apply take_ge.
Qed.

Lemma peer_limit_never_cuts_witness :
  ∃ existing rest,
    (handle_join Basic "C" "r" "u3" "Cy" None (state_after Basic two_in_room)).2
      = socket_emit "C" (RoomJoined "r" existing) :: rest ∧
    Client.peers_to_call existing = existing.
Proof.
  destruct (peer_limit_never_cuts Basic (state_after Basic two_in_room)
              "C" "r" "u3" "Cy" None) as (existing & rest & Hout & _ & Hall).
  - vm_compute. lia.
  - by exists existing, rest.
Defined.

(** X25.  The initials shown for a name are the upper-cased first characters
    of its first two words: for words that are non-empty and free of spaces,
    joined by single spaces, further words do not count; and a name made of
    spaces only has no initials. *)
Theorem initials_of_words (toUpperCase : Text → Text) (l : list Text) (blank : Text) :
  Forall (λ w, w ≠ [] ∧ 32%N ∉ w) l →
  Forall (λ c, c = 32%N) blank →
  Client.getInitials toUpperCase (join_with 32 l)
    = concat ((λ w, toUpperCase (take 1 w)) <$> take 2 l) ∧
  Client.getInitials toUpperCase blank = [].
Proof.
  intros Hl Hblank. unfold Client.getInitials. split.
  - unfold non_empty. destruct l as [|w0 l0]; [done|]. set (l := w0 :: l0) in *.
    rewrite split_on_join_with; [|done|].
    2: { eapply Forall_impl; [exact Hl|]. by intros ? [_ ?]. }
    rewrite filter_all.
    2: { eapply Forall_impl; [exact Hl|]. by intros ? [? _]. }
    f_equal. apply Forall_fmap_ext_1, Forall_take.
    eapply Forall_impl; [exact Hl|]. intros [|c w] [Hw _]; done.
  - assert (non_empty (split_on 32 blank) = []) as ->; [|done]. unfold non_empty.
    assert (Forall (λ w : Text, w = []) (split_on 32 blank)) as Hsegs.
    { apply Forall_forall. intros w Hw.
      pose proof (split_on_sep_free _ _ _ Hw) as Hfree.
      pose proof (split_on_Forall _ 32%N _ Hblank) as Hall.
      rewrite Forall_forall in Hall. specialize (Hall w Hw).
      destruct w as [|c w]; [done|]. apply Forall_cons in Hall as [-> _].
      destruct Hfree. by left. }
    induction Hsegs as [|w ws -> _ IH]; [done|].
    rewrite filter_cons, decide_False by (intros H; by apply H). exact IH.
Qed.

Lemma initials_of_words_witness :
  Client.getInitials (λ t, t) (join_with 32 [[97; 98]; [99]; [100]]%N) = [97; 99]%N ∧
  Client.getInitials (λ t, t) [32; 32]%N = [].
Proof.
  destruct (initials_of_words (λ t, t) [[97; 98]; [99]; [100]]%N [32; 32]%N)
    as [Hwords Hblank].
  - repeat constructor; try done; apply (bool_decide_unpack _); by vm_compute.
  - by repeat constructor.
  - split; [|exact Hblank]. rewrite Hwords. by vm_compute.
Defined.
